(** * world_aq: weather / air-quality ingestion core

    A shallow embedding of the data-acquisition and data-processing core of
    the repository (station matcher, download clients, source normalizer,
    outlier detector, multi-station fuser, interpolator) together with the
    properties its specification states about them.

    Conventions of the embedding:
    - a pandas [DataFrame] is a list of column labels together with a list of
      rows, each row a finite map from column label to cell; a label that is
      missing from a row reads as NaN (this is what [pd.concat] and
      [pd.DataFrame(list_of_dicts)] produce for absent entries);
    - floating-point numbers are modelled by rationals ([Q]); only claims
      that do not depend on rounding are stated;
    - a Python [dict] whose iteration order matters is an association list,
      otherwise a [gmap]. *)

From Stdlib Require Import QArith Qminmax Qabs.
From Stdlib Require Import Sorting.Sorted Sorting.Permutation.
From stdpp Require Import gmap strings list fin_maps sorting pretty.

Open Scope string_scope.
Open Scope list_scope.

(** ** DataFrame model *)

Module Frame.

(** One cell of a table. [NaN] stands for every pandas null (NaN, None,
    NaT). *)
Inductive cell :=
| NaN
| Num (q : Q)
| Int (z : Z)
| Bool (b : bool)
| Str (s : string)
| Date (d : Z).

Record frame := mkFrame {
  columns : list string;
  rows : list (gmap string cell)
}.

(** [pd.DataFrame()] *)
Definition empty_frame : frame := mkFrame [] [].

(** [col in df.columns] *)
Definition has_col (df : frame) (col : string) : bool :=
  bool_decide (col ∈ columns df).

(** [row[col]], a missing entry reading as NaN. *)
Definition get (r : gmap string cell) (col : string) : cell :=
  default NaN (r !! col).

(** [Series.notna()] on one cell. *)
Definition notna (c : cell) : bool :=
  match c with NaN => false | _ => true end.

(** [df[col]]: the column as a Series. *)
Definition column (df : frame) (col : string) : list cell :=
  (λ r, get r col) <$> rows df.

(** [s.sum()] of a boolean Series. *)
Definition count_true (mask : list bool) : nat :=
  length (filter (λ b, b = true) mask).

(** [df[col] = values]: sets (or appends) a whole column. *)
Definition set_column (col : string) (values : list cell) (df : frame) : frame :=
  mkFrame (if has_col df col then columns df else columns df ++ [col])
          (zip_with (λ r v, <[col := v]> r) (rows df) values).

(** [df[col] = v] with a scalar: broadcast to every row. *)
Definition set_scalar (col : string) (v : cell) (df : frame) : frame :=
  mkFrame (if has_col df col then columns df else columns df ++ [col])
          ((λ r, <[col := v]> r) <$> rows df).

(** [df.loc[mask, col] = v] *)
Definition set_where (mask : list bool) (col : string) (v : cell) (df : frame) : frame :=
  mkFrame (columns df)
          (zip_with (λ r (m : bool), if m then <[col := v]> r else r) (rows df) mask).

(** [d.get(key, dflt)] on a dict kept as an association list. *)
Fixpoint dict_get {V} (d : list (string * V)) (key : string) (dflt : V) : V :=
  match d with
  | [] => dflt
  | (k, v) :: d' => if String.eqb k key then v else dict_get d' key dflt
  end.

(** Strict comparison of two floats. *)
Definition Qltb (x y : Q) : bool := negb (Qle_bool y x).

(** The numeric value carried by a cell, if any. *)
Definition as_num (c : cell) : option Q :=
  match c with
  | Num q => Some q
  | Int z => Some (inject_Z z)
  | _ => None
  end.

End Frame.

Import Frame.

(** ** Outlier detector

    [NOAADataProcessor._detect_outliers] and
    [OpenAQDataProcessor.detect_outliers]. *)

Module Outlier.

(** [(x < min_val) | (x > max_val)] on one cell; a comparison with NaN is
    false. *)
Definition out_of_range (lo hi : Q) (c : cell) : bool :=
  match as_num c with
  | Some q => Qltb q lo || Qltb hi q
  | None => false
  end.

(** [((s < min_val) | (s > max_val)) & s.notna()] *)
Definition is_outlier (lo hi : Q) (c : cell) : bool :=
  out_of_range lo hi c && notna c.

Definition outlier_col (col : string) : string := col +:+ "_is_outlier".

(** [result[col].notna().sum()] *)
Definition valid_count (df : frame) (col : string) : nat :=
  count_true (notna <$> column df col).

(** What one row becomes when the field [c] is processed by the NOAA
    detector ([active]: the column exists and has a non-null value). *)
Definition noaa_row (active : bool) (c : string) (lo hi : Q)
    (r : gmap string cell) : gmap string cell :=
  if active then
    let o := is_outlier lo hi (get r c) in
    let r1 := <[outlier_col c := Bool o]> r in
    if o then <[c := NaN]> r1 else r1
  else r.


Definition active (df : frame) (c : string) : bool :=
  has_col df c && negb (Nat.eqb (valid_count df c) 0).

(** Reading the result: the value of field [col] in row [i], and the
    entry of its flag column in that row ([None]: no such row, resp. no
    flag entry). *)
Definition value_at (df : frame) (i : nat) (col : string) : option cell :=
  (λ r, get r col) <$> rows df !! i.

Definition flag_at (df : frame) (i : nat) (col : string) : option cell :=
  rows df !! i ≫= (λ r, r !! outlier_col col).

(** Two frames carry the same data under the labels [ks]. *)
Definition agree (ks : list string) (df df' : frame) : Prop :=
  (∀ k, k ∈ ks → has_col df k = has_col df' k) ∧
  Forall2 (λ r r' : gmap string cell, ∀ k, k ∈ ks → r !! k = r' !! k)
          (rows df) (rows df').

(** What the detector owes one tracked field [c] with range [lo, hi]:
    the rows are kept, a value outside the range is nulled and flagged, a
    value inside the range is kept and not flagged, and a value that was
    already null stays null; [null_flag i] is the flag entry such a null
    value in row [i] ends with. *)
Definition cell_contract (null_flag : nat → option cell)
    (df out : frame) (c : string) (lo hi : Q) : Prop :=
  length (rows out) = length (rows df) ∧
  ∀ i v, value_at df i c = Some v →
    (∀ q, v = Num q → (q < lo ∨ hi < q)%Q →
       value_at out i c = Some NaN ∧ flag_at out i c = Some (Bool true)) ∧
    (∀ q, v = Num q → (lo <= q ∧ q <= hi)%Q →
       value_at out i c = Some (Num q) ∧ flag_at out i c = Some (Bool false)) ∧
    (v = NaN →
       value_at out i c = Some NaN ∧ flag_at out i c = null_flag i).


(** The contract with the flag of a null value false when the field has
    some non-null value, and whatever the input row had under the flag
    label (nothing, for a frame without flag columns) when it has none. *)
Definition flags_null_guarded (df out : frame) (c : string) (lo hi : Q) : Prop :=
  cell_contract
    (λ i, if Nat.eqb (valid_count df c) 0 then flag_at df i c
          else Some (Bool false))
    df out c lo hi.

(** The labels a threshold table makes the detector write: each tracked
    field and its flag column. *)
Definition tracked_keys (ths : list (string * (Q * Q))) : list string :=
  ths ≫= λ e, [e.1; outlier_col e.1].

Module NOAA.

Definition OUTLIER_THRESHOLDS : list (string * (Q * Q)) :=
  [ ("temp_avg_c", (-60, 60));
    ("temp_max_c", (-60, 60));
    ("temp_min_c", (-60, 60));
    ("precip_mm", (0, 2000));
    ("wind_speed_kmh", (0, 300));
    ("visibility_km", (0, 100));
    ("station_pressure_hpa", (870, 1085)) ]%Q.

(** Body of the loop of [_detect_outliers] for one threshold entry. *)
Definition detect_col (result : frame) (entry : string * (Q * Q)) : frame :=
  let '(col, (min_val, max_val)) := entry in
  if negb (has_col result col) then result
  else if Nat.eqb (valid_count result col) 0 then result
  else
    let mask := is_outlier min_val max_val <$> column result col in
    let result := set_column (outlier_col col) (Bool <$> mask) result in
    if Nat.ltb 0 (count_true mask) then set_where mask col NaN result
    else result.

Definition _detect_outliers (df : frame) : frame :=
  foldl detect_col df OUTLIER_THRESHOLDS.

End NOAA.

Module OpenAQ.

Definition OUTLIER_THRESHOLDS : list (string * (Q * Q)) :=
  [ ("pm25", (0, 1000));
    ("pm10", (0, 2000));
    ("o3", (0, 1 # 2));
    ("no2", (0, 2));
    ("so2", (0, 1));
    ("co", (0, 50)) ]%Q.

(** [self.OUTLIER_THRESHOLDS.get(pollutant, (0, 10000))] *)
Definition threshold (pollutant : string) : Q * Q :=
  dict_get OUTLIER_THRESHOLDS pollutant (0, 10000)%Q.

Definition detect_outliers (df : frame) (pollutant : string) : frame :=
  let result := df in
  let value_col := pollutant in
  if negb (has_col result value_col) then result
  else
    let '(min_val, max_val) := threshold pollutant in
    if Nat.eqb (valid_count result value_col) 0 then result
    else
      let mask := is_outlier min_val max_val <$> column result value_col in
      let result :=
        if Nat.ltb 0 (count_true mask) then set_where mask value_col NaN result
        else result in
      set_column (outlier_col value_col) (Bool <$> mask) result.

End OpenAQ.

End Outlier.

(** ** Multi-station fuser

    [NOAADataProcessor.merge_multi_station_data] and
    [OpenAQDataProcessor.merge_multi_station_data].  A result of [None]
    stands for a [KeyError] raised by pandas on a missing column. *)

Module Fuser.

#[global] Instance Q_eq_dec : EqDecision Q.
Proof. solve_decision. Defined.

#[global] Instance cell_eq_dec : EqDecision cell.
Proof. solve_decision. Defined.

Definition source_count_col (col : string) : string := col +:+ "_source_count".

(** [pd.to_datetime] on one cell.  Frames keep their dates parsed: a
    [Date d] cell is the calendar day number [d]; any other cell is read
    as NaT. *)
Definition to_datetime (c : cell) : cell :=
  match c with Date d => Date d | _ => NaN end.

(** The group key of a row under [groupby("date")]; rows with a null date
    belong to no group. *)
Definition row_date (r : gmap string cell) : option Z :=
  match get r "date" with Date d => Some d | _ => None end.

Definition union_cols (acc cols : list string) : list string :=
  foldl (λ acc c, if bool_decide (c ∈ acc) then acc else acc ++ [c]) acc cols.

(** [pd.concat(frames, ignore_index=True)] *)
Definition concat (fs : list frame) : frame :=
  mkFrame (foldl (λ acc f, union_cols acc (columns f)) [] fs) (fs ≫= rows).

(** [pd.DataFrame(list_of_dicts)]; the order of the column labels is not
    modelled. *)
Definition frame_of_records (recs : list (gmap string cell)) : frame :=
  mkFrame (foldl (λ acc r, union_cols acc (map_to_list r).*1) [] recs) recs.

(** The keys of [df.groupby("date")], ascending. *)
Definition group_keys (df : frame) : list Z :=
  merge_sort Z.le (remove_dups (omap row_date (rows df))).

(** The rows of one group, in frame order. *)
Definition group (df : frame) (d : Z) : list (gmap string cell) :=
  filter (λ r, row_date r = Some d) (rows df).

(** [group[group[col].notna()]] *)
Definition valid_rows (g : list (gmap string cell)) (col : string)
    : list (gmap string cell) :=
  filter (λ r, notna (get r col) = true) g.

Definition Qsum (l : list Q) : Q := foldr Qplus 0%Q l.

(** [np.average(values, weights=weights)] *)
Definition average (values weights : list Q) : Q :=
  (Qsum (zip_with Qmult values weights) / Qsum weights)%Q.

(** The float in a cell of a numeric column. *)
Definition cell_num (c : cell) : Q := default 0%Q (as_num c).

(** [np.average(valid[col].values, weights=valid["_weight"].values)] *)
Definition weighted_average (valid : list (gmap string cell)) (col : string) : Q :=
  let weights := (λ r, cell_num (get r "_weight")) <$> valid in
  let values := (λ r, cell_num (get r col)) <$> valid in
  average values weights.

(** [len(group[id_col].unique())] *)
Definition unique_count (g : list (gmap string cell)) (id_col : string) : nat :=
  length (remove_dups ((λ r, get r id_col) <$> g)).

(** The rows of the combined frame: every station's rows, tagged. *)
Definition tagged_rows {K} (tag : K → gmap string cell → gmap string cell)
    (stations : list (K * frame)) : list (gmap string cell) :=
  stations ≫= λ e, tag e.1 <$> rows e.2.

(** The value the loop leaves under a tracked field. *)
Definition loop_value (g : list (gmap string cell)) (c : string) : cell :=
  match valid_rows g c with
  | [] => NaN
  | v => Num (weighted_average v c)
  end.

Definition hygienic (cols : list string) : Prop :=
  NoDup cols ∧ ∀ c c', c ∈ cols → c' ∈ cols → c ≠ source_count_col c'.

(** *** The fused record, described from the inputs *)

(** The records of one station frame that contribute to field [c] on day
    [d]: dated [d], with a non-null value. *)
Definition contributing (df : frame) (d : Z) (c : string)
    : list (gmap string cell) :=
  filter (λ r, row_date r = Some d ∧ notna (get r c) = true) (rows df).

(** Value and weight of every contributing record, stations in input
    order; [w] gives the weight of a station. *)
Definition contributions {K} (w : K → Q) (stations : list (K * frame))
    (d : Z) (c : string) : list (Q * Q) :=
  stations ≫= λ e, (λ r, (cell_num (get r c), w e.1)) <$> contributing e.2 d c.

(** Weighted arithmetic mean of (value, weight) pairs. *)
Definition weighted_mean (cs : list (Q * Q)) : Q := average cs.*1 cs.*2.

(** The stations that hold a non-null value of [c] on day [d]. *)
Definition contributing_stations {K} (stations : list (K * frame))
    (d : Z) (c : string) : list (K * frame) :=
  filter (λ e, contributing e.2 d c ≠ []) stations.

(** The calendar days present in the inputs, ascending, each once. *)
Definition all_dates {K} (stations : list (K * frame)) : list Z :=
  merge_sort Z.le (remove_dups (stations ≫= λ e, omap row_date (rows e.2))).

(** The value of a fused field, from its contributions. *)
Definition fused_value (cs : list (Q * Q)) : cell :=
  match cs with
  | [] => NaN
  | _ => Num (weighted_mean cs)
  end.

(** The quality score of one fused day: tracked fields with a contribution
    over tracked fields. *)
Definition score (cols : list string) (has_contribution : string → Prop)
    `{∀ c, Decision (has_contribution c)} : Q :=
  if Nat.ltb 0 (length cols)
  then (inject_Z (Z.of_nat (length (filter has_contribution cols)))
        / inject_Z (Z.of_nat (length cols)))%Q
  else 0%Q.



(** A station frame holds at most one record per calendar day. *)
Definition daily (df : frame) : Prop :=
  NoDup (omap row_date (rows df)).

Module NOAA.

(** One entry of [stations_info]. *)
Record station_info := mkStation {
  station_id : string;
  distance_km : option Q
}.

Definition core_cols : list string :=
  [ "temp_avg_c"; "temp_max_c"; "temp_min_c"; "dewpoint_c"; "precip_mm";
    "wind_speed_kmh"; "visibility_km"; "station_pressure_hpa" ].

(** The branch [len(station_dataframes) == 1]. *)
Definition single_station (df : frame) : frame :=
  let df :=
    foldl (λ df col,
             if has_col df col then set_scalar (source_count_col col) (Int 1) df
             else df)
          df core_cols in
  let df := set_scalar "station_count" (Int 1) df in
  let df := set_scalar "data_source" (Str "single_station") df in
  set_scalar "data_quality_score" (Num 1) df.

(** [{s["station_id"]: s.get("distance_km", 1) for s in stations_info}] *)
Definition distance_map (stations_info : list station_info) : gmap string Q :=
  foldl (λ m s, <[station_id s := default 1%Q (distance_km s)]> m) ∅ stations_info.

(** [1.0 / max(distance_map.get(station_id, 1), 0.1)] *)
Definition weight (dm : gmap string Q) (sid : string) : Q :=
  (1 / Qmax (default 1 (dm !! sid)) (1 # 10))%Q.

Definition tag_station (dm : gmap string Q) (e : string * frame) : frame :=
  set_scalar "_weight" (Num (weight dm e.1))
    (set_scalar "_station_id" (Str e.1) e.2).

(** One turn of [for col in numeric_cols] on the accumulated
    [(row, valid_col_count)]. *)
Definition fuse_col (quality_control : bool) (g : list (gmap string cell))
    (acc : gmap string cell * nat) (col : string) : gmap string cell * nat :=
  let '(row, valid_col_count) := acc in
  let valid := valid_rows g col in
  let valid_count := length valid in
  if Nat.ltb 0 valid_count then
    let row := <[col := Num (weighted_average valid col)]> row in
    let row := if quality_control
               then <[source_count_col col := Int (Z.of_nat valid_count)]> row
               else row in
    (row, S valid_col_count)
  else
    let row := <[col := NaN]> row in
    let row := if quality_control
               then <[source_count_col col := Int 0]> row
               else row in
    (row, valid_col_count).

(** The body of [for date, group in combined.groupby("date")]. *)
Definition fuse_date (quality_control : bool) (combined : frame)
    (numeric_cols : list string) (d : Z) : option (gmap string cell) :=
  let g := group combined d in
  let total_cols := length numeric_cols in
  let '(row, valid_col_count) :=
    foldl (fuse_col quality_control g) ({[ "date" := Date d ]}, 0%nat) numeric_cols in
  if negb (has_col combined "lat") then None else
  row ← match valid_rows g "lat" with
        | [] => Some row
        | first :: _ =>
            if has_col combined "lon" && has_col combined "elev_m" then
              Some (<["elev_m" := get first "elev_m"]>
                      (<["lon" := get first "lon"]>
                         (<["lat" := get first "lat"]> row)))
            else None
        end;
  let row := <["station_count" := Int (Z.of_nat (unique_count g "_station_id"))]> row in
  let row := <["data_source" := Str "weighted_average"]> row in
  Some (if quality_control then
          <["data_quality_score" :=
              Num (if Nat.ltb 0 total_cols
                   then inject_Z (Z.of_nat valid_col_count)
                        / inject_Z (Z.of_nat total_cols)
                   else 0)%Q]> row
        else row).

Definition merge_multi_station_data
    (station_dataframes : list (string * frame))
    (stations_info : list station_info)
    (quality_control : bool) : option frame :=
  match station_dataframes with
  | [] => Some empty_frame
  | [(_, df)] => Some (single_station df)
  | _ =>
      let dm := distance_map stations_info in
      let combined := concat (tag_station dm <$> station_dataframes) in
      if negb (has_col combined "date") then None else
      let combined :=
        mkFrame (columns combined)
                ((λ r, <["date" := to_datetime (get r "date")]> r) <$> rows combined) in
      let numeric_cols := filter (λ c, has_col combined c = true) core_cols in
      weighted_data ← mapM (fuse_date quality_control combined numeric_cols)
                           (group_keys combined);
      match weighted_data with
      | [] => None
      | _ => Some (frame_of_records weighted_data)
      end
  end.

(** What a station's row looks like in the combined frame. *)
Definition tag_row (dm : gmap string Q) (sid : string) (r : gmap string cell)
    : gmap string cell :=
  let r := <["_weight" := Num (weight dm sid)]> (<["_station_id" := Str sid]> r) in
  <["date" := to_datetime (get r "date")]> r.

(** The tracked fields of a fusion: the core fields some station has. *)
Definition tracked (stations : list (string * frame)) : list string :=
  filter (λ c, Exists (λ e : string * frame, has_col e.2 c = true) stations) core_cols.


(** What [single_station] makes of one row of [df]. *)
Definition single_row (df : frame) (r : gmap string cell) : gmap string cell :=
  let r := foldl (λ r col, if has_col df col then <[source_count_col col := Int 1]> r
                           else r) r core_cols in
  <["data_quality_score" := Num 1]>
    (<["data_source" := Str "single_station"]> (<["station_count" := Int 1]> r)).

(** The labels [single_station] writes. *)
Definition single_labels : list string :=
  [ "station_count"; "data_source"; "data_quality_score" ]
  ++ (source_count_col <$> core_cols).

(** The labels the fuser writes besides the tracked fields and their
    counts. *)
Definition reserved : list string :=
  [ "date"; "lat"; "lon"; "elev_m"; "station_count"; "data_source";
    "data_quality_score"; "_weight"; "_station_id" ].

End NOAA.

Module OpenAQ.

(** One entry of [s["supported_pollutants"]]. *)
Record pollutant_entry := mkPollutant { sensor_id : option Z }.

(** One entry of [stations_info]; sensor and location ids are integers,
    on which [str] is injective, so maps are keyed by the integer. *)
Record station_info := mkStation {
  distance_m : option Q;
  supported_pollutants : option (list pollutant_entry);
  location_id : option Z;
  id : option Z
}.

(** Truthiness of an optional id: [None] and [0] are falsy. *)
Definition truthy (o : option Z) : option Z :=
  match o with
  | Some z => if Z.eqb z 0 then None else Some z
  | None => None
  end.

(** The body of [for s in stations_info] that fills [distance_map]. *)
Definition add_station (dm : gmap Z Q) (s : station_info) : gmap Z Q :=
  let distance := default 1000%Q (distance_m s) in
  match supported_pollutants s with
  | Some ps =>
      foldl (λ m p, match truthy (sensor_id p) with
                    | Some k => <[k := distance]> m
                    | None => m
                    end) dm ps
  | None =>
      let loc_id := match truthy (location_id s) with
                    | Some k => Some k
                    | None => id s
                    end in
      match truthy loc_id with
      | Some k => <[k := distance]> dm
      | None => dm
      end
  end.

Definition distance_map (stations_info : list station_info) : gmap Z Q :=
  foldl add_station ∅ stations_info.

(** [1.0 / max(distance_map.get(str(sensor_id), 1000), 100)] *)
Definition weight (dm : gmap Z Q) (sid : Z) : Q :=
  (1 / Qmax (default 1000 (dm !! sid)) 100)%Q.

Definition tag_station (dm : gmap Z Q) (e : Z * frame) : frame :=
  set_scalar "_weight" (Num (weight dm e.1))
    (set_scalar "_sensor_id" (Int e.1) e.2).

(** The branch [len(station_dataframes) == 1]. *)
Definition single_station (df : frame) : frame :=
  set_scalar "data_quality_score" (Num 1)
    (set_scalar "data_source" (Str "single_station") df).

(** [c.endswith(suffix)] *)
Definition ends_with (c suffix : string) : bool :=
  let n := String.length c in
  let m := String.length suffix in
  Nat.leb m n && String.eqb (String.substring (n - m) m c) suffix.

(** [pd.api.types.is_numeric_dtype(combined[c])]: the column holds
    floats (with NaN) or integers only, or booleans only. *)
Definition is_numeric_dtype (col : list cell) : bool :=
  forallb (λ c, match c with NaN | Num _ | Int _ => true | _ => false end) col
  || forallb (λ c, match c with Bool _ => true | _ => false end) col.

Definition numeric_cols (combined : frame) : list string :=
  filter (λ c,
            negb (bool_decide (c ∈ ["date"; "station_count"; "data_quality_score";
                                    "_weight"; "_sensor_id"]))
            && negb (existsb (ends_with c)
                       ["_unit"; "_source_count"; "_is_outlier"; "_value"])
            && is_numeric_dtype (column combined c) = true)
         (columns combined).

Definition fuse_col (g : list (gmap string cell))
    (acc : gmap string cell * nat) (col : string) : gmap string cell * nat :=
  let '(row, valid_col_count) := acc in
  let valid := valid_rows g col in
  let valid_count := length valid in
  if Nat.ltb 0 valid_count then
    let row := <[col := Num (weighted_average valid col)]> row in
    let row := <[source_count_col col := Int (Z.of_nat valid_count)]> row in
    (row, S valid_col_count)
  else
    (<[col := NaN]> row, valid_col_count).

Definition fuse_date (combined : frame) (numeric_cols : list string) (d : Z)
    : gmap string cell :=
  let g := group combined d in
  let '(row, valid_col_count) :=
    foldl (fuse_col g) ({[ "date" := Date d ]}, 0%nat) numeric_cols in
  let row := <["station_count" := Int (Z.of_nat (unique_count g "_sensor_id"))]> row in
  let row := <["data_source" := Str "weighted_average"]> row in
  <["data_quality_score" :=
      Num (match numeric_cols with
           | [] => 0
           | _ => inject_Z (Z.of_nat valid_col_count)
                  / inject_Z (Z.of_nat (length numeric_cols))
           end)%Q]> row.

Definition merge_multi_station_data
    (station_dataframes : list (Z * frame))
    (stations_info : list station_info) : option frame :=
  match station_dataframes with
  | [] => Some empty_frame
  | [(_, df)] => Some (single_station df)
  | _ =>
      let dm := distance_map stations_info in
      let combined := concat (tag_station dm <$> station_dataframes) in
      let numeric_cols := numeric_cols combined in
      if negb (has_col combined "date") then None else
      match fuse_date combined numeric_cols <$> group_keys combined with
      | [] => None
      | weighted_data => Some (frame_of_records weighted_data)
      end
  end.

(** What a station's row looks like in the combined frame. *)
Definition tag_row (dm : gmap Z Q) (sid : Z) (r : gmap string cell)
    : gmap string cell :=
  <["_weight" := Num (weight dm sid)]> (<["_sensor_id" := Int sid]> r).

(** The tracked fields of a fusion: the numeric columns of the combined
    frame. *)
Definition tracked (dm : gmap Z Q) (stations : list (Z * frame)) : list string :=
  numeric_cols (concat (tag_station dm <$> stations)).


End OpenAQ.

End Fuser.

(** ** Sample data *)

(** A weather frame whose only tracked field holds no value at all. *)
Definition all_null_weather : frame :=
  mkFrame ["date"; "temp_avg_c"]
          [ {[ "date" := Date 19509; "temp_avg_c" := NaN ]};
            {[ "date" := Date 19510 ]} ].

(** A weather frame with an in-range, an out-of-range and a null reading. *)
Definition mixed_weather : frame :=
  mkFrame ["date"; "temp_avg_c"]
          [ {[ "date" := Date 19509; "temp_avg_c" := Num (43 # 2) ]};
            {[ "date" := Date 19510; "temp_avg_c" := Num 75 ]};
            {[ "date" := Date 19511; "temp_avg_c" := NaN ]} ].


(** Two weather stations, 10 km and 40 km away; on day 19509 the first one
    has no temperature (its reading was the missing-value sentinel) and the
    second one reports 21.4 degrees. *)
Definition weather_a : frame :=
  mkFrame ["date"; "lat"; "lon"; "elev_m"; "temp_avg_c"; "precip_mm"]
    [ {[ "date" := Date 19509; "lat" := Num 40; "lon" := Num 116;
         "elev_m" := Num 50; "temp_avg_c" := NaN; "precip_mm" := NaN ]};
      {[ "date" := Date 19510; "lat" := Num 40; "lon" := Num 116;
         "elev_m" := Num 50; "temp_avg_c" := Num 20; "precip_mm" := NaN ]} ].

Definition weather_b : frame :=
  mkFrame ["date"; "lat"; "lon"; "elev_m"; "temp_avg_c"; "precip_mm"]
    [ {[ "date" := Date 19509; "lat" := Num 41; "lon" := Num 117;
         "elev_m" := Num 60; "temp_avg_c" := Num (107 # 5); "precip_mm" := NaN ]};
      {[ "date" := Date 19510; "lat" := Num 41; "lon" := Num 117;
         "elev_m" := Num 60; "temp_avg_c" := Num 30; "precip_mm" := Num 2 ]} ].

Definition weather_stations : list (string * frame) :=
  [ ("A", weather_a); ("B", weather_b) ].

Definition weather_info : list Fuser.NOAA.station_info :=
  [ Fuser.NOAA.mkStation "A" (Some 10%Q); Fuser.NOAA.mkStation "B" (Some 40%Q) ].

(** Two air-quality sensors, 500 m and 2 km away; on day 19510 neither has
    a PM2.5 value. *)
Definition pm25_a : frame :=
  mkFrame ["date"; "pm25"; "pm25_unit"]
    [ {[ "date" := Date 19509; "pm25" := Num 10; "pm25_unit" := Str "ug/m3" ]};
      {[ "date" := Date 19510; "pm25" := NaN; "pm25_unit" := Str "ug/m3" ]} ].

Definition pm25_b : frame :=
  mkFrame ["date"; "pm25"; "pm25_unit"]
    [ {[ "date" := Date 19509; "pm25" := Num 30; "pm25_unit" := Str "ug/m3" ]};
      {[ "date" := Date 19510; "pm25" := NaN; "pm25_unit" := Str "ug/m3" ]} ].

Definition pm25_stations : list (Z * frame) := [ (7%Z, pm25_a); (9%Z, pm25_b) ].

Definition pm25_info : list Fuser.OpenAQ.station_info :=
  [ Fuser.OpenAQ.mkStation (Some 500%Q) None (Some 7%Z) None;
    Fuser.OpenAQ.mkStation (Some 2000%Q) None (Some 9%Z) None ].

(** ** Concentration units

    [OpenAQDataProcessor._convert_unit] and [TARGET_UNITS]. *)

Module Units.

Definition TARGET_UNITS : list (string * string) :=
  [ ("pm25", "µg/m³"); ("pm10", "µg/m³"); ("o3", "ppm"); ("no2", "ppm");
    ("so2", "ppm"); ("co", "ppm") ].

Definition _convert_unit (value : Q) (from_unit to_unit : string) : Q :=
  if String.eqb from_unit to_unit then value
  else
    let pm :=
      if String.eqb to_unit "µg/m³" then
        if String.eqb from_unit "mg/m³" then Some (value * 1000)%Q
        else if String.eqb from_unit "g/m³" then Some (value * 1000000)%Q
        else None
      else None in
    match pm with
    | Some v => v
    | None =>
        let gas :=
          if String.eqb to_unit "ppm" then
            if String.eqb from_unit "ppb" then Some (value / 1000)%Q
            else if String.eqb from_unit "ppt" then Some (value / 1000000)%Q
            else None
          else None in
        match gas with
        | Some v => v
        | None => value
        end
    end.

(** The factor [_convert_unit] applies between two units. *)
Definition factor (from_unit to_unit : string) : Q :=
  _convert_unit 1 from_unit to_unit.

End Units.

(** ** Coverage filter

    [NOAADataProcessor.filter_low_coverage_stations]. *)

Module Coverage.

(** [df[col].notna().mean()]: the non-null fraction of one column. *)
Definition col_mean (df : frame) (col : string) : Q :=
  (inject_Z (Z.of_nat (count_true (notna <$> column df col)))
   / inject_Z (Z.of_nat (length (rows df))))%Q.

(** [df[available_cols].notna().mean().mean()]; [None] is the NaN pandas
    gives for a frame without rows. *)
Definition coverage (df : frame) (available_cols : list string) : option Q :=
  match rows df with
  | [] => None
  | _ => Some (Fuser.Qsum (col_mean df <$> available_cols)
               / inject_Z (Z.of_nat (length available_cols)))%Q
  end.

(** [coverage >= min_coverage]; a comparison with NaN is false. *)
Definition meets (min_coverage : Q) (cov : option Q) : bool :=
  match cov with
  | Some q => Qle_bool min_coverage q
  | None => false
  end.

Definition default_core_columns : list string := ["temp_avg_c"; "precip_mm"].

(** The body of [for station_id, df in station_dataframes.items()], on the
    accumulated [filtered] dict (kept in insertion order). *)
Definition keep_station (min_coverage : Q) (core_columns : list string)
    (filtered : list (string * frame)) (e : string * frame) : list (string * frame) :=
  let available_cols := filter (λ c, has_col e.2 c = true) core_columns in
  match available_cols with
  | [] => filtered
  | _ =>
      if meets min_coverage (coverage e.2 available_cols) then filtered ++ [e]
      else filtered
  end.

Definition filter_low_coverage_stations
    (station_dataframes : list (string * frame))
    (min_coverage : Q) (core_columns : option (list string))
    : list (string * frame) :=
  let core_columns := default default_core_columns core_columns in
  foldl (keep_station min_coverage core_columns) [] station_dataframes.

(** Whether a station survives the filter. *)
Definition survives (min_coverage : Q) (core_columns : list string)
    (e : string * frame) : bool :=
  let available_cols := filter (λ c, has_col e.2 c = true) core_columns in
  match available_cols with
  | [] => false
  | _ => meets min_coverage (coverage e.2 available_cols)
  end.

(** A frame is complete on the given columns: every cell is non-null. *)
Definition complete (df : frame) (cols : list string) : Prop :=
  Forall (λ c, Forall (λ r, notna (get r c) = true) (rows df)) cols.

End Coverage.

(** ** Point-HTTP client

    [NOAAClient.download_year] and [NOAAClient.download_city_year].  The
    disk and the network are explicit: a state holds the files (path to
    content) and the log of the URLs requested so far; an environment says
    what a GET answers and which paths can be written. *)

Module Client.

(** What [requests.get(url, timeout=30)] does: return a response or raise
    (connection error, timeout). *)
Inductive outcome :=
| Answered (status : Z) (content : string)
| Unreachable.

Record env := mkEnv {
  (** the answer to a GET, which may depend on the requests made before *)
  net : list string → string → outcome;
  (** whether directory and file can be created at a path *)
  writable : string → bool
}.

Record state := mkState {
  files : gmap string string;
  requests : list string
}.

(** The exceptions the handlers of [download_year] tell apart. *)
Inductive exn := HTTPError | OtherException.

(** Stateful computations that may raise. *)
Definition M (A : Type) : Type := state → (exn + A) * state.

Definition ret {A} (x : A) : M A := λ st, (inr x, st).

Definition raise {A} (e : exn) : M A := λ st, (inl e, st).

Definition bind {A B} (m : M A) (k : A → M B) : M B :=
  λ st, match m st with
        | (inr x, st') => k x st'
        | (inl e, st') => (inl e, st')
        end.

#[global] Instance M_ret : MRet M := @ret.

#[global] Instance M_bind : MBind M := λ A B k m, bind m k.

(** [requests.get(url, timeout=30)] *)
Definition requests_get (E : env) (url : string) : M (Z * string) :=
  λ st,
  let st' := mkState (files st) (requests st ++ [url]) in
  match net E (requests st) url with
  | Answered status content => (inr (status, content), st')
  | Unreachable => (inl OtherException, st')
  end.

(** [response.raise_for_status()] *)
Definition raise_for_status (status : Z) : M unit :=
  if (400 <=? status)%Z && (status <? 600)%Z then raise HTTPError else ret tt.

(** [Path(output_dir).mkdir(...)] followed by writing the file. *)
Definition write_file (E : env) (path content : string) : M unit :=
  λ st,
  if writable E path
  then (inr tt, mkState (<[path := content]> (files st)) (requests st))
  else (inl OtherException, st).

(** [Path(path).exists()] *)
Definition path_exists (st : state) (path : string) : bool :=
  bool_decide (is_Some (files st !! path)).

(** [s.replace(c, "")] for a one-character [c]. *)
Fixpoint remove_char (c : Ascii.ascii) (s : string) : string :=
  match s with
  | EmptyString => EmptyString
  | String a s' =>
      if Ascii.eqb a c then remove_char c s' else String a (remove_char c s')
  end.

Fixpoint last_char (s : string) : option Ascii.ascii :=
  match s with
  | EmptyString => None
  | String a EmptyString => Some a
  | String _ s' => last_char s'
  end.

(** [os.path.join(a, b)] (POSIX). *)
Definition slash : Ascii.ascii := Ascii.ascii_of_nat 47.

Definition dash : Ascii.ascii := Ascii.ascii_of_nat 45.

Definition path_join (a b : string) : string :=
  if String.prefix "/" b then b
  else if String.eqb a "" || bool_decide (last_char a = Some slash) then a +:+ b
  else a +:+ "/" +:+ b.

Definition NOAA_BASE_URL : string := "https://noaa-gsod-pds.s3.amazonaws.com".

Section WithCacheDir.
(** [NOAA_CACHE_DIR], a path below the installation directory. *)
Variable NOAA_CACHE_DIR : string.
Variable E : env.

Definition output_path_of (year : Z) (station_id : string)
    (output_dir : option string) : string :=
  let output_dir := default NOAA_CACHE_DIR output_dir in
  let clean_station_id := remove_char dash station_id in
  path_join output_dir (pretty year +:+ "_" +:+ clean_station_id +:+ ".csv").

Definition url_of (year : Z) (station_id : string) : string :=
  let clean_station_id := remove_char dash station_id in
  NOAA_BASE_URL +:+ "/" +:+ pretty year +:+ "/" +:+ clean_station_id +:+ ".csv".

(** The [try] block of [download_year]. *)
Definition fetch (url output_path : string) : M string :=
  response ← requests_get E url;
  _ ← raise_for_status response.1;
  _ ← write_file E output_path response.2;
  mret output_path.

Definition download_year (year : Z) (station_id : string)
    (output_dir : option string) (use_cache : bool)
    : state → option string * state :=
  λ st,
  let output_path := output_path_of year station_id output_dir in
  if use_cache && path_exists st output_path then (Some output_path, st)
  else
    let url := url_of year station_id in
    match fetch url output_path st with
    | (inr path, st') => (Some path, st')
    | (inl HTTPError, st') => (None, st')
    | (inl OtherException, st') => (None, st')
    end.

(** Truthiness of [download_year]'s result in [if path:]. *)
Definition truthy (path : option string) : bool :=
  match path with
  | Some p => negb (String.eqb p "")
  | None => false
  end.

(** One turn of [for station_id in station_ids] on the accumulated
    [downloaded] list and the state. *)
Definition city_step (year : Z) (output_dir : option string)
    (acc : list string * state) (station_id : string) : list string * state :=
  let '(downloaded, st) := acc in
  let '(path, st') := download_year year station_id output_dir true st in
  if truthy path then (downloaded ++ [default "" path], st') else (downloaded, st').

(** [download_city_year]; the city name is only logged. *)
Definition download_city_year (city : string) (year : Z)
    (station_ids : list string) (output_dir : option string)
    : state → list string * state :=
  λ st, foldl (city_step year output_dir) ([], st) station_ids.

End WithCacheDir.

End Client.

(** A network that serves the 2023 file of station 72503014732 and answers
    404 to everything else, over a writable, empty disk. *)
Definition sample_env : Client.env :=
  Client.mkEnv
    (λ _ url,
       if String.eqb url
            "https://noaa-gsod-pds.s3.amazonaws.com/2023/72503014732.csv"
       then Client.Answered 200 "STATION,DATE,TEMP"
       else Client.Answered 404 "")
    (λ _, true).

Definition empty_disk : Client.state := Client.mkState ∅ [].

(** ** Bulk-archive client

    [OpenAQS3Downloader._list_s3_files], [download_year_data] and
    [download_stations_for_city].  A [Path] is its list of segments.  The
    worker pool runs one task per listed key; the tasks are taken as atomic
    and run in an arbitrary order (the [schedule]), which is also the order
    in which [as_completed] hands back the results. *)

Module S3.

Record env := mkEnv {
  (** [list_objects_v2(Bucket, Prefix)]: [None] when the call raises,
      [Some None] for a response without ["Contents"], else the keys *)
  list_objects : string → option (option (list string));
  (** [get_object(Bucket, Key)["Body"].read()]: [None] when it raises *)
  get_object : string → option string;
  (** whether directory and file can be created at a path *)
  writable : list string → bool
}.

Record state := mkState {
  files : gmap (list string) string;
  fetched : list string
}.

(** [f"{month:02d}"] *)
Definition pad2 (m : Z) : string :=
  let s := pretty m in
  if Nat.ltb (String.length s) 2 then "0" +:+ s else s.

(** The prefix [_list_s3_files] asks for; a month of [None] or [0] is
    falsy and adds nothing. *)
Definition prefix_of (location_id year : Z) (month : option Z) : string :=
  let prefix := "records/csv.gz/locationid=" +:+ pretty location_id
                +:+ "/year=" +:+ pretty year +:+ "/" in
  match month with
  | Some m => if Z.eqb m 0 then prefix else prefix +:+ "month=" +:+ pad2 m +:+ "/"
  | None => prefix
  end.

Definition is_csv_gz (key : string) : bool :=
  Fuser.OpenAQ.ends_with key ".csv.gz".

Definition _list_s3_files (E : env) (location_id year : Z) (month : option Z)
    : list string :=
  match list_objects E (prefix_of location_id year month) with
  | Some (Some keys) => merge_sort String.le (filter (λ k, is_csv_gz k = true) keys)
  | Some None => merge_sort String.le []
  | None => []
  end.

(** [s3_key.split("/")[-1]] *)
Fixpoint last_segment_from (acc : string) (s : string) : string :=
  match s with
  | EmptyString => acc
  | String c s' =>
      if Ascii.eqb c Client.slash then last_segment_from "" s'
      else last_segment_from (acc +:+ String c "") s'
  end.

Definition last_segment (s : string) : string := last_segment_from "" s.

(** [dir / name] for a name without slash; an empty name gives [dir]. *)
Definition child (dir : list string) (name : string) : list string :=
  if String.eqb name "" then dir else dir ++ [name].

Definition local_path_of (city_cache_dir : list string) (location_id year : Z)
    (s3_key : string) : list string :=
  let year_cache_dir := child (child city_cache_dir (pretty year)) (pretty location_id) in
  child year_cache_dir (last_segment s3_key).

(** The counters and the result list of one batch. *)
Record batch := mkBatch {
  downloaded_files : list (list string);
  success_count : nat;
  failed_count : nat
}.

(** [download_single_file(s3_key)] followed by the collection of its
    result in [downloaded_files]. *)
Definition download_single_file (E : env) (city_cache_dir : list string)
    (location_id year : Z) (use_cache : bool)
    (acc : batch * state) (s3_key : string) : batch * state :=
  let '(b, st) := acc in
  let local_path := local_path_of city_cache_dir location_id year s3_key in
  if use_cache && bool_decide (is_Some (files st !! local_path)) then
    (mkBatch (downloaded_files b ++ [local_path]) (S (success_count b)) (failed_count b),
     st)
  else
    let st := mkState (files st) (fetched st ++ [s3_key]) in
    match get_object E s3_key with
    | Some content =>
        if writable E local_path then
          (mkBatch (downloaded_files b ++ [local_path]) (S (success_count b))
                   (failed_count b),
           mkState (<[local_path := content]> (files st)) (fetched st))
        else
          (mkBatch (downloaded_files b) (success_count b) (S (failed_count b)), st)
    | None =>
        (mkBatch (downloaded_files b) (success_count b) (S (failed_count b)), st)
    end.

Definition download_year_data (E : env) (schedule : list string → list string)
    (location_id year : Z) (city_cache_dir : list string) (use_cache : bool)
    (st : state) : batch * state :=
  let s3_files := _list_s3_files E location_id year None in
  match s3_files with
  | [] => (mkBatch [] 0 0, st)
  | _ =>
      foldl (download_single_file E city_cache_dir location_id year use_cache)
            (mkBatch [] 0 0, st) (schedule s3_files)
  end.

(** Whether one key is obtained when its task runs in state [st]. *)
Definition obtained (E : env) (city_cache_dir : list string) (location_id year : Z)
    (use_cache : bool) (st : state) (s3_key : string) : bool :=
  let local_path := local_path_of city_cache_dir location_id year s3_key in
  (use_cache && bool_decide (is_Some (files st !! local_path)))
  || (bool_decide (is_Some (get_object E s3_key)) && writable E local_path).

End S3.

(** An archive with three monthly objects (and a stray index file) for
    location 2178 in 2023; the February object cannot be fetched. *)
Definition sample_archive : S3.env :=
  S3.mkEnv
    (λ prefix,
       if String.eqb prefix "records/csv.gz/locationid=2178/year=2023/"
       then Some (Some [ "records/csv.gz/locationid=2178/year=2023/month=03/c.csv.gz";
                         "records/csv.gz/locationid=2178/year=2023/month=01/a.csv.gz";
                         "records/csv.gz/locationid=2178/year=2023/index.html";
                         "records/csv.gz/locationid=2178/year=2023/month=02/b.csv.gz" ])
       else Some None)
    (λ key,
       if String.eqb key "records/csv.gz/locationid=2178/year=2023/month=02/b.csv.gz"
       then None else Some "gz")
    (λ _, true).


(** ** Geo-matcher

    [NOAAStationMatcher.find_nearest_station] and [find_nearest_stations]
    on the cleaned catalog.  The great-circle distance is floating-point
    trigonometry and stays a parameter; so does the sort of
    [sort_values("distance_km")], pandas' default quicksort, of which only
    the contract is known: it returns the rows in non-decreasing order of
    distance. *)

Module Matcher.

(** One row of the cleaned catalog ([LAT] and [LON] are numbers). *)
Record station := mkStation {
  USAF : string;
  WBAN : string;
  STATION_NAME : string;
  LAT : Q;
  LON : Q;
  ELEV : option Q
}.

(** One entry of the result list. *)
Record candidate := mkCandidate {
  usaf : string;
  wban : string;
  station_id : string;
  name : string;
  lat : Q;
  lon : Q;
  distance_km : Q
}.

Fixpoint zeros (n : nat) : string :=
  match n with
  | O => ""
  | S n' => String (Ascii.ascii_of_nat 48) (zeros n')
  end.

(** [s.zfill(width)]: zeros go after a leading sign. *)
Definition zfill (width : nat) (s : string) : string :=
  let pad := zeros (width - String.length s) in
  match s with
  | String c s' =>
      if Ascii.eqb c Client.dash || Ascii.eqb c (Ascii.ascii_of_nat 43)
      then String c (pad +:+ s')
      else pad +:+ s
  | EmptyString => pad
  end.

(** [max_distance_km or float("inf")]: [None] stands for infinity; a limit
    of [None] or of zero is falsy. *)
Definition limit_of (max_distance_km : option Q) : option Q :=
  match max_distance_km with
  | Some m => if Qeq_bool m 0 then None else Some m
  | None => None
  end.

(** [distance < limit] *)
Definition under (limit : option Q) (distance : Q) : bool :=
  match limit with
  | Some m => Qltb distance m
  | None => true
  end.

(** [df.head(n)]: the first [n] rows, or all but the last [-n] rows. *)
Definition head {A} (n : Z) (l : list A) : list A :=
  if (0 <=? n)%Z then take (Z.to_nat n) l
  else take (length l - Z.to_nat (- n)) l.

(** Rows are ordered by their distance. *)
Definition closer (a b : station * Q) : Prop := Qle_bool a.2 b.2 = true.

(** [valid.loc[valid["distance_km"].idxmin()]]: the first row of minimal
    distance. *)
Fixpoint idxmin (l : list (station * Q)) : option (station * Q) :=
  match l with
  | [] => None
  | r :: l' =>
      match idxmin l' with
      | Some r' => if Qltb r'.2 r.2 then Some r' else Some r
      | None => Some r
      end
  end.

Definition to_candidate (row : station * Q) : candidate :=
  let s := row.1 in
  mkCandidate (zfill 6 (USAF s)) (zfill 5 (WBAN s))
              (zfill 6 (USAF s) +:+ "-" +:+ zfill 5 (WBAN s))
              (STATION_NAME s) (LAT s) (LON s) row.2.

Section WithDistance.
Variable haversine_distance : Q → Q → Q → Q → Q.
Variable sort_values : list (station * Q) → list (station * Q).

(** The catalog with its [distance_km] column. *)
Definition with_distance (lat lon : Q) (df : list station) : list (station * Q) :=
  (λ s, (s, haversine_distance lat lon (LAT s) (LON s))) <$> df.

(** [df[df["distance_km"] < (max_distance_km or float("inf"))]] *)
Definition valid_rows (lat lon : Q) (max_distance_km : option Q)
    (df : list station) : list (station * Q) :=
  filter (λ r, under (limit_of max_distance_km) r.2 = true) (with_distance lat lon df).

(** The result dict of [find_nearest_station]: the fields of a candidate
    and [elevation_m]. *)
Definition find_nearest_station (lat lon : Q) (max_distance_km : option Q)
    (df : list station) : option (candidate * option Q) :=
  (λ r, (to_candidate r, ELEV r.1)) <$> idxmin (valid_rows lat lon max_distance_km df).

(** The rows [find_nearest_stations] keeps, before they are turned into
    dicts. *)
Definition nearest_rows (lat lon : Q) (n : Z) (max_distance_km : option Q)
    (df : list station) : list (station * Q) :=
  head n (sort_values (valid_rows lat lon max_distance_km df)).

Definition find_nearest_stations (lat lon : Q) (n : Z) (max_distance_km : option Q)
    (df : list station) : list candidate :=
  to_candidate <$> nearest_rows lat lon n max_distance_km df.

(** [find_stations_for_city]; the city name is only logged. *)
Definition find_stations_for_city (city_name : string) (lat lon : Q) (n : Z)
    (df : list station) : list candidate :=
  find_nearest_stations lat lon n (Some 100%Q) df.

End WithDistance.

#[global] Instance closer_dec : RelDecision closer.
Proof. intros a b. unfold closer. apply _. Defined.

(** A sort that meets the contract, to run the matcher on examples. *)
Definition merge_sort_by_distance : list (station * Q) → list (station * Q) :=
  merge_sort closer.

(** A stand-in for the distance on examples: the sum of the coordinate
    differences. *)
Definition grid_distance (lat1 lon1 lat2 lon2 : Q) : Q :=
  (Qabs (lat2 - lat1) + Qabs (lon2 - lon1))%Q.

End Matcher.

(** Three stations at grid distances 1, 4 and 9 from the origin. *)
Definition sample_catalog : list Matcher.station :=
  [ Matcher.mkStation "725090" "14739" "FAR" 9 0 None;
    Matcher.mkStation "10010" "99999" "NEAR" 1 0 (Some 9%Q);
    Matcher.mkStation "725030" "14732" "MID" 0 4 None ].

(** ** NOAA normalisation pipeline

    [NOAADataProcessor.process] with [_convert_units] and
    [_select_columns]; the last stage is the outlier detector above. *)

Module NOAAProcess.

(** What the pipeline can raise: a column that is read but absent, or
    arithmetic on a value that is not a number. *)
Inductive error :=
| KeyError (key : string)
| TypeError.

#[global] Instance error_ret : MRet (sum error) := λ A x, inr x.
#[global] Instance error_bind : MBind (sum error) :=
  λ A B k m, match m with inl e => inl e | inr x => k x end.

(** [config.NOAA_MISSING_VALUES]: the sentinel of each raw column. *)
Definition NOAA_MISSING_VALUES : list (string * Q) :=
  [ ("TEMP", 99999 # 10);
    ("DEWP", 99999 # 10);
    ("SLP", 99999 # 10);
    ("STP", 9999 # 10);
    ("VISIB", 9999 # 10);
    ("WDSP", 9999 # 10);
    ("MXSPD", 9999 # 10);
    ("GUST", 9999 # 10);
    ("MAX", 99999 # 10);
    ("MIN", 99999 # 10);
    ("PRCP", 9999 # 100);
    ("SNDP", 9999 # 10) ]%Q.

(** [df.empty]: no column or no row. *)
Definition empty (df : frame) : bool :=
  match columns df, rows df with
  | [], _ | _, [] => true
  | _, _ => false
  end.

(** [Series.replace(missing_val, np.nan)] on one cell. *)
Definition replace (missing_val : Q) (c : cell) : cell :=
  match as_num c with
  | Some q => if Qeq_bool q missing_val then NaN else c
  | None => c
  end.

(** Body of the first loop of [process]. *)
Definition replace_col (result : frame) (entry : string * Q) : frame :=
  let '(col, missing_val) := entry in
  if has_col result col
  then set_column col (replace missing_val <$> column result col) result
  else result.

(** Float arithmetic on one cell of a Series: a null stays null, a boolean
    counts as 0 or 1, a string or a date raises. *)
Definition arith (f : Q → Q) (c : cell) : error + cell :=
  match c with
  | NaN => inr NaN
  | Num q => inr (Num (f q))
  | Int z => inr (Num (f (inject_Z z)))
  | Bool b => inr (Num (f (if b then 1%Q else 0%Q)))
  | Str _ | Date _ => inl TypeError
  end.

(** [result[new] = f(result[old])] *)
Definition derive (new old : string) (f : Q → Q) (result : frame) : error + frame :=
  if has_col result old then
    values ← mapM (arith f) (column result old);
    mret (set_column new values result)
  else inl (KeyError old).

Definition fahrenheit_to_celsius (x : Q) : Q := ((x - 32) * 5 / 9)%Q.
Definition inches_to_mm (x : Q) : Q := (x * (254 # 10))%Q.
Definition knots_to_kmh (x : Q) : Q := (x * (1852 # 1000))%Q.
Definition miles_to_km (x : Q) : Q := (x * (160934 # 100000))%Q.

(** [a.fillna(b)] on one pair of cells. *)
Definition fillna (a b : cell) : cell := if notna a then a else b.

Definition _convert_units (df : frame) : error + frame :=
  let result := df in
  result ← (if has_col result "TEMP" then
              result ← derive "TEMP_C" "TEMP" fahrenheit_to_celsius result;
              result ← derive "MAX_C" "MAX" fahrenheit_to_celsius result;
              result ← derive "MIN_C" "MIN" fahrenheit_to_celsius result;
              derive "DEWP_C" "DEWP" fahrenheit_to_celsius result
            else mret result);
  result ← (if has_col result "PRCP"
            then derive "PRCP_MM" "PRCP" inches_to_mm result
            else mret result);
  result ← (if has_col result "WDSP"
            then derive "WDSP_KMH" "WDSP" knots_to_kmh result
            else mret result);
  result ← (if has_col result "VISIB"
            then derive "VISIB_KM" "VISIB" miles_to_km result
            else mret result);
  mret (if has_col result "SLP" && has_col result "STP" then
          set_column "STP_HPA"
            (zip_with fillna (column result "SLP") (column result "STP")) result
        else if has_col result "SLP" then
          set_column "STP_HPA" (column result "SLP") result
        else if has_col result "STP" then
          set_column "STP_HPA" (column result "STP") result
        else result).

(** The renaming table of [_select_columns], in the order of the source. *)
Definition SELECTED_COLUMNS : list (string * string) :=
  [ ("STATION", "station_id");
    ("DATE", "date");
    ("LATITUDE", "lat");
    ("LONGITUDE", "lon");
    ("ELEVATION", "elev_m");
    ("TEMP_C", "temp_avg_c");
    ("MAX_C", "temp_max_c");
    ("MIN_C", "temp_min_c");
    ("DEWP_C", "dewpoint_c");
    ("PRCP_MM", "precip_mm");
    ("WDSP_KMH", "wind_speed_kmh");
    ("VISIB_KM", "visibility_km");
    ("STP_HPA", "station_pressure_hpa");
    ("FRSHTT", "weather_flags") ].

(** One row of [pd.DataFrame(selected)]. *)
Definition select_row (selected : list (string * string))
    (r : gmap string cell) : gmap string cell :=
  list_to_map ((λ e, (e.2, get r e.1)) <$> selected).

(** [pd.DataFrame(selected)] keeps the rows of the selected Series; built
    from no Series at all it has neither columns nor rows. *)
Definition _select_columns (df : frame) : frame :=
  let selected := filter (λ e, has_col df e.1 = true) SELECTED_COLUMNS in
  match selected with
  | [] => empty_frame
  | _ => mkFrame (selected.*2) (select_row selected <$> rows df)
  end.

Definition process (df : frame) : error + frame :=
  if empty df then inr df
  else
    let result := foldl replace_col df NOAA_MISSING_VALUES in
    result ← _convert_units result;
    let result := _select_columns result in
    mret (Outlier.NOAA._detect_outliers result).

(** What [process] does to the measurements that are converted by
    arithmetic: the raw column whose presence triggers the conversion, the
    raw column read, its sentinel, the conversion, the column that holds
    the converted values and the label it is selected under. *)
Record measurement := mkMeasurement {
  trigger : string;
  raw : string;
  sentinel : Q;
  convert : Q → Q;
  derived : string;
  label : string
}.

Definition MEASUREMENTS : list measurement :=
  [ mkMeasurement "TEMP" "TEMP" (99999 # 10) fahrenheit_to_celsius "TEMP_C" "temp_avg_c";
    mkMeasurement "TEMP" "MAX" (99999 # 10) fahrenheit_to_celsius "MAX_C" "temp_max_c";
    mkMeasurement "TEMP" "MIN" (99999 # 10) fahrenheit_to_celsius "MIN_C" "temp_min_c";
    mkMeasurement "TEMP" "DEWP" (99999 # 10) fahrenheit_to_celsius "DEWP_C" "dewpoint_c";
    mkMeasurement "PRCP" "PRCP" (9999 # 100) inches_to_mm "PRCP_MM" "precip_mm";
    mkMeasurement "WDSP" "WDSP" (9999 # 10) knots_to_kmh "WDSP_KMH" "wind_speed_kmh";
    mkMeasurement "VISIB" "VISIB" (9999 # 10) miles_to_km "VISIB_KM" "visibility_km" ]%Q.

(** The reading a raw cell carries: none when it is null or holds the
    sentinel. *)
Definition reading (missing_val : Q) (c : cell) : option Q :=
  match as_num c with
  | Some q => if Qeq_bool q missing_val then None else Some q
  | None => None
  end.

(** The physical range of a processed field, if it has one. *)
Fixpoint limits (ths : list (string * (Q * Q))) (col : string) : option (Q * Q) :=
  match ths with
  | [] => None
  | (k, range) :: ths' => if String.eqb k col then Some range else limits ths' col
  end.

Definition plausible (col : string) (v : Q) : Prop :=
  match limits Outlier.NOAA.OUTLIER_THRESHOLDS col with
  | Some (lo, hi) => (lo <= v ∧ v <= hi)%Q
  | None => True
  end.


(** A raw cell of a column of floats. *)
Definition float_or_null (c : cell) : Prop :=
  match c with NaN | Num _ => True | _ => False end.

(** The columns [_convert_units] writes. *)
Definition DERIVED : list string :=
  [ "TEMP_C"; "MAX_C"; "MIN_C"; "DEWP_C"; "PRCP_MM"; "WDSP_KMH"; "VISIB_KM";
    "STP_HPA" ].

(** [df'] has the rows of [df], changed at most under the labels [ns]. *)
Definition untouched (ns : list string) (df df' : frame) : Prop :=
  length (rows df') = length (rows df) ∧
  ∀ k, k ∉ ns → column df' k = column df k ∧ has_col df' k = has_col df k.

End NOAAProcess.

(** Two days of raw GSOD readings: an ordinary day, and one whose mean
    temperature is the sentinel and whose maximum is absurd. *)
Definition raw_gsod : frame :=
  mkFrame ["DATE"; "TEMP"; "MAX"; "MIN"; "DEWP"; "SLP"; "STP"]
    [ {[ "DATE" := Str "2023-06-01"; "TEMP" := Num 68; "MAX" := Num 77;
         "MIN" := Num 59; "DEWP" := Num 50;
         "SLP" := Num (10132 # 10); "STP" := Num (9999 # 10) ]};
      {[ "DATE" := Str "2023-06-02"; "TEMP" := Num (99999 # 10); "MAX" := Num 212;
         "MIN" := Num 59; "DEWP" := NaN;
         "SLP" := Num (99999 # 10); "STP" := Num 1001 ]} ].

(** [raw_gsod] after [process]. *)
Definition processed_gsod : frame :=
  match NOAAProcess.process raw_gsod with
  | inr out => out
  | inl _ => empty_frame
  end.

(** A frame with a mean temperature but no daily maximum. *)
Definition temperature_only : frame :=
  mkFrame ["DATE"; "TEMP"]
    [ {[ "DATE" := Str "2023-06-01"; "TEMP" := Num 68 ]} ].

(** * Properties *)

(** Membership of a listed element in a literal list. *)
Ltac in_list := repeat first [apply list_elem_of_here | apply list_elem_of_further].

(** ** Outlier detector: row-wise view *)

Section OutlierRows.
Import Outlier.

Lemma outlier_col_ne (c : string) : outlier_col c ≠ c.
Proof.
  unfold outlier_col. induction c as [|a c IH]; simpl; [discriminate|].
  intros H. injection H as H. auto.
Qed.

Lemma string_length_app (s t : string) :
  String.length (s +:+ t) = (String.length s + String.length t)%nat.
Proof. induction s as [|a s IH]; simpl; [done | by rewrite IH]. Qed.

Lemma outlier_col_inj (c c' : string) : outlier_col c = outlier_col c' → c = c'.
Proof.
  unfold outlier_col. intros H.
  assert (Hl : String.length c = String.length c').
  { apply (f_equal String.length) in H.
    rewrite !string_length_app in H. lia. }
  revert c' H Hl. induction c as [|a c IH]; intros [|a' c'] H Hl;
    simpl in *; try discriminate; [done|].
  injection H as -> H. f_equal. apply IH; [done|lia].
Qed.

Lemma count_true_zero (mask : list bool) :
  count_true mask = 0%nat → Forall (λ b, b = false) mask.
Proof.
  unfold count_true. induction mask as [|[] mask IH]; intros H.
  - constructor.
  - rewrite filter_cons_True in H by done. discriminate.
  - rewrite filter_cons_False in H by done. constructor; auto.
Qed.

Lemma count_true_pos (mask : list bool) :
  (0 < count_true mask)%nat ↔ true ∈ mask.
Proof.
  unfold count_true. induction mask as [|[] mask IH].
  - simpl. split; [lia | by intros ?%elem_of_nil].
  - rewrite filter_cons_True by done. simpl. split; [intros _; left | lia].
  - rewrite filter_cons_False by done. rewrite IH. split.
    + by right.
    + intros [?|?]%elem_of_cons; [discriminate | done].
Qed.

Lemma zip_mask_rows {A B} (f : A → B → A) (g : A → B) (l : list A) :
  zip_with f l (g <$> l) = (λ x, f x (g x)) <$> l.
Proof. induction l as [|x l IH]; csimpl; [done | by rewrite IH]. Qed.

Lemma zip_false_rows (c : string) (v : cell) (l : list (gmap string cell))
    (mask : list bool) :
  length mask = length l →
  Forall (λ b, b = false) mask →
  zip_with (λ r (m : bool), if m then <[c := v]> r else r) l mask = l.
Proof.
  revert mask. induction l as [|r l IH]; intros [|m mask] Hl Hf;
    csimpl in *; try done.
  inversion Hf; subst. f_equal. apply IH; [lia|done].
Qed.

Lemma noaa_detect_col_rows (df : frame) (c : string) (lo hi : Q) :
  rows (NOAA.detect_col df (c, (lo, hi)))
  = noaa_row (active df c) c lo hi <$> rows df.
Proof.
  unfold NOAA.detect_col, active, noaa_row.
  destruct (has_col df c); simpl; [|by rewrite list_fmap_id].
  destruct (Nat.eqb (valid_count df c) 0); simpl; [by rewrite list_fmap_id|].
  set (mask := is_outlier lo hi <$> column df c).
  assert (Hrows : rows (set_column (outlier_col c) (Bool <$> mask) df)
                  = (λ r, <[outlier_col c := Bool (is_outlier lo hi (get r c))]> r)
                      <$> rows df).
  { unfold set_column, mask, column. simpl.
    rewrite <- !list_fmap_compose. apply zip_mask_rows. }
  destruct (Nat.ltb 0 (count_true mask)) eqn:Hc.
  - unfold set_where. simpl. unfold mask, column.
    rewrite <- !list_fmap_compose.
    generalize (rows df). intros l. induction l as [|r l IH]; csimpl; [done|].
    by rewrite IH.
  - rewrite Hrows. apply Nat.ltb_ge in Hc.
    assert (Hz : count_true mask = 0%nat) by lia.
    apply count_true_zero in Hz. unfold mask, column in Hz.
    rewrite <- list_fmap_compose in Hz.
    revert Hz. generalize (rows df). intros l Hz.
    induction l as [|r l IH]; csimpl; [done|].
    inversion Hz as [|? ? Hr Hl]; subst. simpl in Hr.
    rewrite IH by done. by rewrite Hr.
Qed.


(** *** Row-level facts *)

Lemma noaa_row_value a c lo hi r :
  get (noaa_row a c lo hi r) c
  = if a && is_outlier lo hi (get r c) then NaN else get r c.
Proof.
  unfold noaa_row, get. destruct a; simpl; [|done].
  destruct (is_outlier lo hi (default NaN (r !! c))).
  - by rewrite lookup_insert_eq.
  - rewrite lookup_insert_ne; [done | apply outlier_col_ne].
Qed.

Lemma noaa_row_flag a c lo hi r :
  noaa_row a c lo hi r !! outlier_col c
  = if a then Some (Bool (is_outlier lo hi (get r c))) else r !! outlier_col c.
Proof.
  unfold noaa_row. destruct a; simpl; [|done].
  destruct (is_outlier lo hi (get r c)).
  - rewrite lookup_insert_ne, lookup_insert_eq; [done|].
    intros H. symmetry in H. by apply outlier_col_ne in H.
  - by rewrite lookup_insert_eq.
Qed.

Lemma noaa_row_other a c lo hi r k :
  k ≠ c → k ≠ outlier_col c → noaa_row a c lo hi r !! k = r !! k.
Proof.
  intros H1 H2. unfold noaa_row. destruct a; simpl; [|done].
  destruct (is_outlier lo hi (get r c)); by rewrite !lookup_insert_ne.
Qed.



Lemma is_outlier_NaN lo hi : is_outlier lo hi NaN = false.
Proof. done. Qed.

(** *** Column labels *)

Lemma noaa_detect_col_columns df c lo hi :
  columns (NOAA.detect_col df (c, (lo, hi)))
  = if active df c && negb (has_col df (outlier_col c))
    then (columns df ++ [outlier_col c])%list else columns df.
Proof.
  unfold NOAA.detect_col, active.
  destruct (has_col df c); simpl; [|done].
  destruct (Nat.eqb (valid_count df c) 0); simpl; [done|].
  destruct (Nat.ltb 0 _); simpl; by destruct (has_col df (outlier_col c)).
Qed.

Lemma openaq_detect_columns df p :
  columns (OpenAQ.detect_outliers df p)
  = if active df p && negb (has_col df (outlier_col p))
    then (columns df ++ [outlier_col p])%list else columns df.
Proof.
  unfold OpenAQ.detect_outliers, active.
  destruct (has_col df p); simpl; [|done].
  destruct (OpenAQ.threshold p) as [lo hi].
  destruct (Nat.eqb (valid_count df p) 0); simpl; [done|].
  unfold set_column, has_col.
  destruct (Nat.ltb 0 _); simpl;
    by destruct (bool_decide (outlier_col p ∈ columns df)).
Qed.

Lemma noaa_detect_col_has_col df c lo hi k :
  has_col (NOAA.detect_col df (c, (lo, hi))) k
  = has_col df k || (active df c && bool_decide (k = outlier_col c)).
Proof.
  unfold has_col at 1. rewrite noaa_detect_col_columns.
  destruct (active df c); simpl; [|by rewrite orb_false_r].
  destruct (has_col df (outlier_col c)) eqn:Hf; simpl.
  - fold (has_col df k). case_bool_decide as Hk; [|by rewrite orb_false_r].
    subst. by rewrite Hf.
  - unfold has_col. apply eq_true_iff_eq.
    rewrite orb_true_iff, !bool_decide_eq_true, elem_of_app, list_elem_of_singleton.
    done.
Qed.

(** *** Frames that agree on some labels *)

Lemma agree_refl ks df : agree ks df df.
Proof. split; [done|]. apply Forall_Forall2_diag, Forall_forall. done. Qed.

Lemma agree_sym ks df df' : agree ks df df' → agree ks df' df.
Proof.
  intros [H1 H2]. split; [by intros k Hk; rewrite H1|].
  apply Forall2_flip. eapply Forall2_impl; [exact H2|].
  simpl. intros r r' H k Hk. by rewrite H.
Qed.

Lemma agree_trans ks df1 df2 df3 :
  agree ks df1 df2 → agree ks df2 df3 → agree ks df1 df3.
Proof.
  intros [H1 H2] [H3 H4]. split; [by intros k Hk; rewrite H1, H3|].
  eapply Forall2_trans; [|exact H2|exact H4].
  simpl. intros r1 r2 r3 Ha Hb k Hk. by rewrite Ha, Hb.
Qed.

Lemma agree_column ks df df' c :
  agree ks df df' → c ∈ ks → column df c = column df' c.
Proof.
  intros [_ H] Hc. unfold column.
  induction H as [|r r' l l' Hr _ IH]; csimpl; [done|].
  unfold get at 1 3. by rewrite (Hr c Hc), IH.
Qed.

Lemma agree_active ks df df' c :
  agree ks df df' → c ∈ ks → active df c = active df' c.
Proof.
  intros H Hc. unfold active, valid_count.
  by rewrite (agree_column _ _ _ _ H Hc), (proj1 H c Hc).
Qed.

Lemma agree_rows_length ks df df' :
  agree ks df df' → length (rows df) = length (rows df').
Proof. intros [_ H]. by eapply Forall2_length. Qed.

Lemma noaa_step_other ks df c lo hi :
  (∀ k, k ∈ ks → k ≠ c ∧ k ≠ outlier_col c) →
  agree ks df (NOAA.detect_col df (c, (lo, hi))).
Proof.
  intros Hks. split.
  - intros k Hk. rewrite noaa_detect_col_has_col.
    destruct (Hks k Hk) as [_ Hf].
    rewrite (bool_decide_eq_false_2 _ Hf). by rewrite andb_false_r, orb_false_r.
  - rewrite noaa_detect_col_rows. apply Forall2_fmap_r, Forall2_same_length_lookup_2; [done|].
    intros i r r' Hr Hr' k Hk. simplify_eq.
    destruct (Hks k Hk). by rewrite noaa_row_other.
Qed.

Lemma noaa_step_congr df df' c lo hi :
  agree [c; outlier_col c] df df' →
  agree [c; outlier_col c] (NOAA.detect_col df (c, (lo, hi)))
                           (NOAA.detect_col df' (c, (lo, hi))).
Proof.
  intros H.
  assert (Hc : c ∈ [c; outlier_col c]) by set_solver.
  assert (Hf : outlier_col c ∈ [c; outlier_col c]) by set_solver.
  pose proof (agree_active _ _ _ _ H Hc) as Ha.
  destruct H as [H1 H2]. split.
  - intros k Hk. rewrite !noaa_detect_col_has_col, Ha. by rewrite (H1 k Hk).
  - rewrite !noaa_detect_col_rows, <- Ha.
    apply Forall2_fmap. eapply Forall2_impl; [exact H2|].
    simpl. intros r r' Hr k Hk.
    assert (Hg : get r c = get r' c) by (unfold get; by rewrite (Hr c Hc)).
    apply elem_of_cons in Hk as [->|Hk].
    + pose proof (noaa_row_value (active df c) c lo hi r) as E1.
      pose proof (noaa_row_value (active df c) c lo hi r') as E2.
      unfold noaa_row in *. destruct (active df c); simpl in *; [|by apply Hr].
      rewrite <- Hg. destruct (is_outlier lo hi (get r c)).
      * by rewrite !lookup_insert_eq.
      * rewrite !lookup_insert_ne by apply outlier_col_ne. by apply Hr.
    + apply list_elem_of_singleton in Hk as ->.
      rewrite !noaa_row_flag, Hg. destruct (active df c); [done|by apply Hr].
Qed.

Lemma noaa_fold_other ks ths df :
  (∀ k, k ∈ ks → k ∉ tracked_keys ths) →
  agree ks df (foldl NOAA.detect_col df ths).
Proof.
  revert df. induction ths as [|[c [lo hi]] ths IH]; intros df Hks; simpl.
  - apply agree_refl.
  - eapply agree_trans.
    + apply (noaa_step_other ks df c lo hi). intros k Hk.
      specialize (Hks k Hk). unfold tracked_keys in Hks. csimpl in Hks.
      set_solver.
    + apply IH. intros k Hk. specialize (Hks k Hk).
      unfold tracked_keys in *. csimpl in Hks. set_solver.
Qed.

Lemma noaa_fold_target ths df c lo hi :
  NoDup (tracked_keys ths) →
  (c, (lo, hi)) ∈ ths →
  agree [c; outlier_col c] (NOAA.detect_col df (c, (lo, hi)))
                           (foldl NOAA.detect_col df ths).
Proof.
  intros Hnd Hin. apply list_elem_of_split in Hin as (l1 & l2 & ->).
  unfold tracked_keys in Hnd. rewrite bind_app in Hnd. csimpl in Hnd.
  apply NoDup_app in Hnd as (_ & Hd1 & Hnd2).
  apply NoDup_cons in Hnd2 as (Hc2 & Hnd2).
  apply NoDup_cons in Hnd2 as (Hf2 & _).
  rewrite foldl_app. simpl.
  eapply agree_trans.
  - apply noaa_step_congr. apply (noaa_fold_other _ l1).
    intros k Hk Hk1. apply (Hd1 k Hk1). set_solver.
  - apply noaa_fold_other. intros k Hk.
    apply elem_of_cons in Hk as [->|Hk]; [set_solver|].
    apply list_elem_of_singleton in Hk as ->. done.
Qed.

Lemma noaa_thresholds_NoDup : NoDup (tracked_keys NOAA.OUTLIER_THRESHOLDS).
Proof. apply (bool_decide_unpack _). by vm_compute. Qed.

(** *** From rows to the contract *)

Lemma agree_value_at ks A B c i :
  agree ks A B → c ∈ ks → value_at A i c = value_at B i c.
Proof.
  intros H Hc. unfold value_at.
  pose proof (agree_column _ _ _ _ H Hc) as E. unfold column in E.
  rewrite <- !list_lookup_fmap. by rewrite E.
Qed.

Lemma agree_flag_at ks A B c i :
  agree ks A B → outlier_col c ∈ ks → flag_at A i c = flag_at B i c.
Proof.
  intros [_ H] Hc. unfold flag_at.
  destruct (rows A !! i) as [r|] eqn:Hr.
  - destruct (Forall2_lookup_l _ _ _ _ _ H Hr) as (r' & -> & Hrr). simpl. auto.
  - apply lookup_ge_None_1 in Hr. rewrite (Forall2_length _ _ _ H) in Hr.
    apply lookup_ge_None_2 in Hr. by rewrite Hr.
Qed.

Lemma valid_count_pos df c i r :
  rows df !! i = Some r → notna (get r c) = true → valid_count df c ≠ 0%nat.
Proof.
  intros Hr Hn. unfold valid_count.
  enough (0 < count_true (notna <$> column df c))%nat by lia.
  apply count_true_pos. apply list_elem_of_fmap. exists (get r c). split; [done|].
  unfold column. apply list_elem_of_fmap. exists r. split; [done|].
  by eapply list_elem_of_lookup_2.
Qed.

Lemma Qltb_lt x y : Qltb x y = true ↔ (x < y)%Q.
Proof.
  unfold Qltb. rewrite negb_true_iff, <- not_true_iff_false, Qle_bool_iff.
  split; [apply Qnot_le_lt | apply Qlt_not_le].
Qed.

Lemma is_outlier_outside lo hi q :
  (q < lo ∨ hi < q)%Q → is_outlier lo hi (Num q) = true.
Proof.
  intros H. unfold is_outlier, out_of_range. simpl. rewrite andb_true_r.
  apply orb_true_iff. by rewrite !Qltb_lt.
Qed.

Lemma is_outlier_inside lo hi q :
  (lo <= q ∧ q <= hi)%Q → is_outlier lo hi (Num q) = false.
Proof.
  intros [H1 H2]. unfold is_outlier, out_of_range. simpl. rewrite andb_true_r.
  apply orb_false_iff. split; apply not_true_iff_false; rewrite Qltb_lt;
    by apply Qle_not_lt.
Qed.

Lemma contract_of_rows df out c lo hi :
  has_col df c = true →
  length (rows out) = length (rows df) →
  (∀ i r, rows df !! i = Some r →
     value_at out i c
       = Some (if active df c && is_outlier lo hi (get r c) then NaN else get r c)
     ∧ flag_at out i c
       = if active df c then Some (Bool (is_outlier lo hi (get r c)))
         else r !! outlier_col c) →
  flags_null_guarded df out c lo hi.
Proof.
  intros Hcol Hlen Hrows. split; [done|].
  intros i v Hv. unfold value_at in Hv.
  destruct (rows df !! i) as [r|] eqn:Hr; [|done]. simpl in Hv. simplify_eq.
  destruct (Hrows i r Hr) as [Ev Ef]. rewrite Ev, Ef. clear Ev Ef.
  split; [|split].
  - intros q Hq Hout.
    assert (Ha : active df c = true).
    { unfold active. rewrite Hcol. simpl. apply negb_true_iff, Nat.eqb_neq.
      eapply valid_count_pos; [done|]. by rewrite Hq. }
    by rewrite Ha, Hq, is_outlier_outside.
  - intros q Hq Hin.
    assert (Ha : active df c = true).
    { unfold active. rewrite Hcol. simpl. apply negb_true_iff, Nat.eqb_neq.
      eapply valid_count_pos; [done|]. by rewrite Hq. }
    by rewrite Ha, Hq, is_outlier_inside.
  - intros Hq. rewrite Hq, is_outlier_NaN, andb_false_r.
    split; [done|]. unfold active, flag_at. rewrite Hcol, Hr. simpl.
    by destruct (Nat.eqb (valid_count df c) 0).
Qed.

Lemma noaa_detect_col_contract df c lo hi :
  has_col df c = true →
  flags_null_guarded df (NOAA.detect_col df (c, (lo, hi))) c lo hi.
Proof.
  intros Hcol. apply contract_of_rows; [done| |].
  - by rewrite noaa_detect_col_rows, length_fmap.
  - intros i r Hr. unfold value_at, flag_at.
    rewrite noaa_detect_col_rows, list_lookup_fmap, Hr. simpl.
    by rewrite noaa_row_value, noaa_row_flag.
Qed.

Lemma contract_agree nf df out out' c lo hi :
  agree [c; outlier_col c] out out' →
  cell_contract nf df out c lo hi → cell_contract nf df out' c lo hi.
Proof.
  intros Hag [Hlen H]. split.
  - by rewrite <- (agree_rows_length _ _ _ Hag).
  - intros i v Hv.
    rewrite <- !(agree_value_at _ _ _ c i Hag) by set_solver.
    rewrite <- !(agree_flag_at _ _ _ c i Hag) by set_solver.
    by apply H.
Qed.

End OutlierRows.

(** ** Outlier detector: the stated properties *)

Section OutlierClaims.
Import Outlier.

Example mixed_weather_detected :
  rows (NOAA._detect_outliers mixed_weather)
  = [ {[ "date" := Date 19509; "temp_avg_c" := Num (43 # 2);
         "temp_avg_c_is_outlier" := Bool false ]};
      {[ "date" := Date 19510; "temp_avg_c" := NaN;
         "temp_avg_c_is_outlier" := Bool true ]};
      {[ "date" := Date 19511; "temp_avg_c" := NaN;
         "temp_avg_c_is_outlier" := Bool false ]} ].
Proof. vm_cast_no_check (eq_refl (rows (NOAA._detect_outliers mixed_weather))). Qed.

Example all_null_weather_detected :
  NOAA._detect_outliers all_null_weather = all_null_weather.
Proof. vm_cast_no_check (eq_refl all_null_weather). Qed.




(** C10: when a tracked field has no non-null value, the detector adds no
    flag column for it and leaves its values (and whatever the rows held
    under the flag label) as they were; so a flag column that is new in the
    output belongs to a field that had a non-null value in the input. *)
Theorem all_null_field_untouched :
  (∀ df c lo hi,
     (c, (lo, hi)) ∈ NOAA.OUTLIER_THRESHOLDS →
     let out := NOAA._detect_outliers df in
     (valid_count df c = 0%nat →
        has_col out (outlier_col c) = has_col df (outlier_col c) ∧
        length (rows out) = length (rows df) ∧
        ∀ i, value_at out i c = value_at df i c ∧
             flag_at out i c = flag_at df i c) ∧
     (has_col out (outlier_col c) = true →
        has_col df (outlier_col c) = true ∨ valid_count df c ≠ 0%nat))
  ∧
  (∀ df p,
     let out := OpenAQ.detect_outliers df p in
     (valid_count df p = 0%nat → out = df) ∧
     (has_col out (outlier_col p) = true →
        has_col df (outlier_col p) = true ∨ valid_count df p ≠ 0%nat)).
Proof.
  split.
  - intros df c lo hi Hin out. subst out. unfold NOAA._detect_outliers.
    pose proof (noaa_fold_target _ df c lo hi noaa_thresholds_NoDup Hin) as Hag.
    assert (Hf : outlier_col c ∈ [c; outlier_col c])
      by apply list_elem_of_further, list_elem_of_here.
    assert (Hc : c ∈ [c; outlier_col c]) by apply list_elem_of_here.
    split.
    + intros Hz.
      assert (Hid : NOAA.detect_col df (c, (lo, hi)) = df).
      { unfold NOAA.detect_col. rewrite Hz. simpl. by destruct (has_col df c). }
      rewrite Hid in Hag. split; [|split].
      * symmetry. by apply (proj1 Hag).
      * symmetry. by eapply agree_rows_length.
      * intros i. split; symmetry.
        -- by eapply agree_value_at.
        -- by eapply agree_flag_at.
    + intros Hout. pose proof (proj1 Hag _ Hf) as E.
      rewrite Hout, noaa_detect_col_has_col in E.
      apply orb_true_iff in E as [?|Ha]; [by left|right].
      apply andb_true_iff in Ha as [Ha _]. unfold active in Ha.
      apply andb_true_iff in Ha as [_ Ha].
      by apply negb_true_iff, Nat.eqb_neq in Ha.
  - intros df p out. split.
    + intros Hz. unfold out, OpenAQ.detect_outliers. rewrite Hz. simpl.
      destruct (has_col df p); simpl; [|done]. by destruct (OpenAQ.threshold p).
    + intros Hout. unfold has_col in Hout at 1. unfold out in Hout.
      rewrite openaq_detect_columns in Hout.
      destruct (active df p) eqn:Ha; simpl in Hout; [|by left].
      right. unfold active in Ha. apply andb_true_iff in Ha as [_ Ha].
      by apply negb_true_iff, Nat.eqb_neq in Ha.
Qed.

Lemma all_null_field_untouched_witness :
  has_col (NOAA._detect_outliers all_null_weather) (outlier_col "temp_avg_c")
  = has_col all_null_weather (outlier_col "temp_avg_c")
  ∧ length (rows (NOAA._detect_outliers all_null_weather))
    = length (rows all_null_weather)
  ∧ ∀ i, value_at (NOAA._detect_outliers all_null_weather) i "temp_avg_c"
         = value_at all_null_weather i "temp_avg_c"
       ∧ flag_at (NOAA._detect_outliers all_null_weather) i "temp_avg_c"
         = flag_at all_null_weather i "temp_avg_c".
Proof.
  apply (proj1 (proj1 all_null_field_untouched all_null_weather
                  "temp_avg_c" (-60)%Q 60%Q (list_elem_of_here _ _))).
  reflexivity.
Defined.

End OutlierClaims.

(** ** Multi-station fuser: tagged rows and contributions *)

Section FuserGeneric.
Import Fuser.
Context {K : Type} (w : K → Q) (tag : K → gmap string cell → gmap string cell).
Notation tagged_rows := (Fuser.tagged_rows tag).
Hypothesis tag_date : ∀ k r, row_date (tag k r) = row_date r.
Hypothesis tag_weight : ∀ k r, get (tag k r) "_weight" = Num (w k).

Lemma tagged_dates stations :
  omap row_date (tagged_rows stations)
  = stations ≫= λ e, omap row_date (rows e.2).
Proof.
  unfold tagged_rows. induction stations as [|e stations IH]; csimpl; [done|].
  rewrite omap_app, IH. f_equal.
  induction (rows e.2) as [|r l IHl]; csimpl; [done|].
  rewrite tag_date. destruct (row_date r); csimpl; by rewrite IHl.
Qed.

Lemma tagged_valid stations d c :
  (∀ k r, get (tag k r) c = get r c) →
  valid_rows (filter (λ r, row_date r = Some d) (tagged_rows stations)) c
  = stations ≫= λ e, tag e.1 <$> contributing e.2 d c.
Proof.
  intros Hc. unfold tagged_rows, valid_rows, contributing.
  induction stations as [|e stations IH]; csimpl; [done|].
  rewrite !filter_app, IH. f_equal.
  induction (rows e.2) as [|r l IHl]; csimpl; [done|].
  rewrite !filter_cons, tag_date.
  destruct (decide (row_date r = Some d)) as [Hd|Hd].
  - rewrite filter_cons, Hc.
    destruct (decide (notna (get r c) = true)) as [Hn|Hn].
    + rewrite decide_True by done. csimpl. by rewrite IHl.
    + rewrite decide_False by tauto. done.
  - rewrite decide_False by tauto. done.
Qed.

Lemma tagged_valid_length stations d c :
  length (stations ≫= λ e, tag e.1 <$> contributing e.2 d c)
  = length (contributions w stations d c).
Proof.
  unfold contributions. induction stations as [|e stations IH]; csimpl; [done|].
  by rewrite !length_app, !length_fmap, IH.
Qed.

Lemma tagged_average stations d c :
  (∀ k r, get (tag k r) c = get r c) →
  weighted_average (stations ≫= λ e, tag e.1 <$> contributing e.2 d c) c
  = weighted_mean (contributions w stations d c).
Proof.
  intros Hc. unfold weighted_average, weighted_mean, contributions.
  assert (Hv : (λ r, cell_num (get r c)) <$>
               (stations ≫= λ e, tag e.1 <$> contributing e.2 d c)
               = (stations ≫= λ e, (λ r, (cell_num (get r c), w e.1))
                                     <$> contributing e.2 d c).*1).
  { induction stations as [|e stations IH]; csimpl; [done|].
    rewrite !fmap_app, IH. f_equal.
    rewrite <- !list_fmap_compose. apply list_fmap_ext.
    intros i r _. simpl. by rewrite Hc. }
  assert (Hw : (λ r, cell_num (get r "_weight")) <$>
               (stations ≫= λ e, tag e.1 <$> contributing e.2 d c)
               = (stations ≫= λ e, (λ r, (cell_num (get r c), w e.1))
                                     <$> contributing e.2 d c).*2).
  { clear Hv. induction stations as [|e stations IH]; csimpl; [done|].
    rewrite !fmap_app, IH. f_equal.
    rewrite <- !list_fmap_compose. apply list_fmap_ext.
    intros i r _. simpl. by rewrite tag_weight. }
  by rewrite Hv, Hw.
Qed.

End FuserGeneric.

(** ** Multi-station fuser: the loop over the tracked fields *)

Section FuserLoop.
Import Fuser.

Lemma string_app_inj_l (s c c' : string) : c +:+ s = c' +:+ s → c = c'.
Proof.
  intros H.
  assert (Hl : String.length c = String.length c').
  { apply (f_equal String.length) in H.
    rewrite !string_length_app in H. lia. }
  revert c' H Hl. induction c as [|a c IH]; intros [|a' c'] H Hl;
    simpl in *; try discriminate; [done|].
  injection H as -> H. f_equal. apply IH; [done|lia].
Qed.

Lemma string_app_ne (s c : string) : s ≠ "" → c +:+ s ≠ c.
Proof.
  intros Hs H. apply (f_equal String.length) in H.
  rewrite string_length_app in H. destruct s; [done|]. simpl in H. lia.
Qed.

Lemma source_count_col_inj c c' :
  source_count_col c = source_count_col c' → c = c'.
Proof. apply string_app_inj_l. Qed.

Lemma source_count_col_ne c : source_count_col c ≠ c.
Proof. by apply string_app_ne. Qed.

Lemma hygienic_snoc cols c :
  hygienic (cols ++ [c]) →
  hygienic cols ∧ c ∉ cols ∧
  (∀ c', c' ∈ cols → c ≠ source_count_col c' ∧ c' ≠ source_count_col c).
Proof.
  intros [Hnd Hh]. apply NoDup_app in Hnd as (Hnd & Hd & _).
  split; [split; [done|]|split].
  - intros a b Ha Hb. apply Hh; apply elem_of_app; by left.
  - intros Hc. apply (Hd c Hc). apply list_elem_of_singleton. done.
  - intros c' Hc'. split; apply Hh; apply elem_of_app;
      (by left) || (right; by apply list_elem_of_singleton).
Qed.


End FuserLoop.

(** ** Multi-station fuser: the weather fuser on two or more stations *)

Section FuserNOAA.
Import Fuser.

Lemma union_cols_elem acc cols c :
  c ∈ union_cols acc cols ↔ c ∈ acc ∨ c ∈ cols.
Proof.
  unfold union_cols. revert acc. induction cols as [|x cols IH]; intros acc; simpl.
  - split; [by left | intros [?|?%elem_of_nil]; done].
  - rewrite IH. case_bool_decide as Hx.
    + rewrite elem_of_cons. split; [tauto|]. intros [?|[Hc|?]]; [tauto|subst; tauto|tauto].
    + rewrite elem_of_app, list_elem_of_singleton, elem_of_cons. tauto.
Qed.

Lemma concat_columns fs c :
  c ∈ columns (concat fs) ↔ ∃ f, f ∈ fs ∧ c ∈ columns f.
Proof.
  unfold concat. simpl.
  assert (G : ∀ acc, c ∈ foldl (λ acc f, union_cols acc (columns f)) acc fs
                     ↔ c ∈ acc ∨ ∃ f, f ∈ fs ∧ c ∈ columns f).
  { induction fs as [|f fs IH]; intros acc; simpl.
    - split; [by left|]. intros [?|(f & ?%elem_of_nil & _)]; done.
    - rewrite IH, union_cols_elem. split.
      + intros [[?|?]|(f' & ? & ?)]; [by left| |].
        * right. exists f. split; [left|done].
        * right. exists f'. split; [by right|done].
      + intros [?|(f' & [Hf|?]%elem_of_cons & ?)]; [by left; left|subst f'|].
        * left. by right.
        * right. by exists f'. }
  rewrite G. split; [intros [?%elem_of_nil|?]; done | by right].
Qed.

Lemma set_scalar_columns k v df c :
  c ∈ columns (set_scalar k v df) ↔ c ∈ columns df ∨ c = k.
Proof.
  unfold set_scalar, has_col. simpl. case_bool_decide as Hk.
  - split; [by left | intros [?|Hc]; by subst].
  - by rewrite elem_of_app, list_elem_of_singleton.
Qed.

Lemma noaa_combined_has_col dm stations c :
  has_col (concat (NOAA.tag_station dm <$> stations)) c = true ↔
  (stations ≠ [] ∧ (c = "_weight" ∨ c = "_station_id")) ∨
  ∃ e, e ∈ stations ∧ has_col e.2 c = true.
Proof.
  unfold has_col. rewrite bool_decide_eq_true, concat_columns. split.
  - intros (f & Hf & Hc). apply list_elem_of_fmap in Hf as (e & -> & He).
    unfold NOAA.tag_station in Hc. rewrite !set_scalar_columns in Hc.
    destruct Hc as [[Hc|Hc]|Hc]; [|subst c..].
    + right. exists e. by rewrite bool_decide_eq_true.
    + left. split; [by intros ->; apply elem_of_nil in He | by right].
    + left. split; [by intros ->; apply elem_of_nil in He | by left].
  - intros [[Hne Hc]|(e & He & Hc)].
    + destruct stations as [|e stations]; [done|].
      exists (NOAA.tag_station dm e). split; [csimpl; left|].
      unfold NOAA.tag_station. rewrite !set_scalar_columns. destruct Hc; subst c; tauto.
    + exists (NOAA.tag_station dm e). split.
      * apply list_elem_of_fmap. by exists e.
      * unfold NOAA.tag_station. rewrite !set_scalar_columns.
        apply bool_decide_eq_true in Hc. tauto.
Qed.





End FuserNOAA.

Section FuserTagged.
Import Fuser.
Context {K : Type} (w : K → Q) (tag : K → gmap string cell → gmap string cell).
Hypothesis tag_date : ∀ k r, row_date (tag k r) = row_date r.
Hypothesis tag_weight : ∀ k r, get (tag k r) "_weight" = Num (w k).

Lemma valid_rows_tagged stations d c :
  (∀ k r, get (tag k r) c = get r c) →
  length (valid_rows (filter (λ r, row_date r = Some d) (tagged_rows tag stations)) c)
  = length (contributions w stations d c).
Proof.
  intros Hc. rewrite (tagged_valid tag tag_date) by done.
  apply tagged_valid_length.
Qed.

Lemma loop_value_tagged stations d c :
  (∀ k r, get (tag k r) c = get r c) →
  loop_value (filter (λ r, row_date r = Some d) (tagged_rows tag stations)) c
  = fused_value (contributions w stations d c).
Proof.
  intros Hc. unfold loop_value, fused_value.
  pose proof (valid_rows_tagged stations d c Hc) as Hl.
  pose proof (tagged_average w tag tag_weight stations d c Hc) as Ha.
  rewrite <- (tagged_valid tag tag_date) in Ha by done.
  destruct (valid_rows _ c) as [|v vs] eqn:Hv;
    destruct (contributions w stations d c) as [|x xs] eqn:Hcs;
    simpl in Hl; try discriminate; [done|].
  by rewrite Ha.
Qed.

Lemma filter_ext_in {A} (P1 P2 : A → Prop) `{∀ x, Decision (P1 x)}
    `{∀ x, Decision (P2 x)} (l : list A) :
  (∀ x, x ∈ l → P1 x ↔ P2 x) → filter P1 l = filter P2 l.
Proof.
  induction l as [|x l IH]; intros Hl; [done|].
  rewrite !filter_cons.
  assert (Hx : P1 x ↔ P2 x) by (apply Hl; left).
  rewrite IH by (intros y Hy; apply Hl; by right).
  destruct (decide (P1 x)), (decide (P2 x)); tauto || done.
Qed.

Lemma contributions_filter stations d (cols : list string) :
  (∀ c, c ∈ cols → ∀ k r, get (tag k r) c = get r c) →
  filter (λ c, valid_rows (filter (λ r, row_date r = Some d)
                             (tagged_rows tag stations)) c ≠ []) cols
  = filter (λ c, contributions w stations d c ≠ []) cols.
Proof.
  intros Hcols. apply filter_ext_in. intros c Hc.
  pose proof (valid_rows_tagged stations d c (Hcols c Hc)) as Hl.
  destruct (valid_rows _ c); destruct (contributions w stations d c);
    simpl in Hl; try discriminate; done.
Qed.

End FuserTagged.

Section FuserNOAAMerge.
Import Fuser.

Lemma core_cols_hygienic : hygienic NOAA.core_cols.
Proof.
  split; [apply (bool_decide_unpack _); by vm_compute|].
  assert (H : Forall (λ c, Forall (λ c', c ≠ source_count_col c') NOAA.core_cols)
                     NOAA.core_cols)
    by (apply (bool_decide_unpack _); by vm_compute).
  intros c c' Hc Hc'. rewrite Forall_forall in H.
  specialize (H c Hc). rewrite Forall_forall in H. by apply H.
Qed.

Lemma core_cols_reserved c :
  c ∈ NOAA.core_cols → c ∉ NOAA.reserved ∧ source_count_col c ∉ NOAA.reserved.
Proof.
  assert (H : Forall (λ c, c ∉ NOAA.reserved ∧ source_count_col c ∉ NOAA.reserved)
                     NOAA.core_cols)
    by (apply (bool_decide_unpack _); by vm_compute).
  rewrite Forall_forall in H. apply H.
Qed.




End FuserNOAAMerge.

Section FuserNOAAResult.
Import Fuser.


Lemma noaa_merge_unfold e1 e2 rest info qc :
  NOAA.merge_multi_station_data (e1 :: e2 :: rest) info qc
  = let stations := e1 :: e2 :: rest in
    let dm := NOAA.distance_map info in
    let combined := concat (NOAA.tag_station dm <$> stations) in
    if negb (has_col combined "date") then None else
    let combined :=
      mkFrame (columns combined)
              ((λ r, <["date" := to_datetime (get r "date")]> r) <$> rows combined) in
    let numeric_cols := filter (λ c, has_col combined c = true) NOAA.core_cols in
    weighted_data ← mapM (NOAA.fuse_date qc combined numeric_cols) (group_keys combined);
    match weighted_data with
    | [] => None
    | _ => Some (frame_of_records weighted_data)
    end.
Proof. by destruct e1. Qed.



End FuserNOAAResult.

(** ** Multi-station fuser: the air-quality fuser on two or more stations *)

Section FuserOpenAQ.
Import Fuser.

Lemma substring_all (s : string) : String.substring 0 (String.length s) s = s.
Proof. induction s as [|a s IH]; simpl; [done | by rewrite IH]. Qed.

Lemma substring_skip (c s : string) (m : nat) :
  String.substring (String.length c) m (c +:+ s) = String.substring 0 m s.
Proof. induction c as [|a c IH]; simpl; [done | by rewrite IH]. Qed.

Lemma ends_with_app (c suffix : string) :
  OpenAQ.ends_with (c +:+ suffix) suffix = true.
Proof.
  unfold OpenAQ.ends_with. rewrite string_length_app.
  apply andb_true_iff. split; [apply Nat.leb_le; lia|].
  replace (String.length c + String.length suffix - String.length suffix)%nat
    with (String.length c) by lia.
  rewrite substring_skip, substring_all. apply String.eqb_refl.
Qed.

Lemma union_cols_NoDup acc cols : NoDup acc → NoDup (union_cols acc cols).
Proof.
  unfold union_cols. revert acc. induction cols as [|x cols IH]; intros acc Hacc;
    simpl; [done|].
  apply IH. case_bool_decide as Hx; [done|].
  apply NoDup_app. split; [done|]. split; [|apply NoDup_singleton].
  intros y Hy ?%list_elem_of_singleton. by subst.
Qed.

Lemma concat_columns_NoDup fs : NoDup (columns (concat fs)).
Proof.
  unfold concat. simpl.
  assert (G : ∀ acc, NoDup acc →
                NoDup (foldl (λ acc f, union_cols acc (columns f)) acc fs)).
  { induction fs as [|f fs IH]; intros acc Hacc; simpl; [done|].
    by apply IH, union_cols_NoDup. }
  apply G, NoDup_nil_2.
Qed.

Lemma openaq_numeric_cols_elem combined c :
  c ∈ OpenAQ.numeric_cols combined →
  c ∉ ["date"; "station_count"; "data_quality_score"; "_weight"; "_sensor_id"] ∧
  OpenAQ.ends_with c "_source_count" = false.
Proof.
  unfold OpenAQ.numeric_cols. intros [H _]%list_elem_of_filter.
  apply andb_true_iff in H as [H _]. apply andb_true_iff in H as [H1 H2].
  apply negb_true_iff in H1, H2. apply bool_decide_eq_false in H1.
  split; [done|]. simpl in H2. apply orb_false_iff in H2 as [_ H2].
  by apply orb_false_iff in H2 as [H2 _].
Qed.

Lemma openaq_numeric_cols_hygienic combined :
  NoDup (columns combined) → hygienic (OpenAQ.numeric_cols combined).
Proof.
  intros Hnd. split; [by apply NoDup_filter|].
  intros c c' Hc _ ->. apply openaq_numeric_cols_elem in Hc as [_ Hc].
  unfold source_count_col in Hc. by rewrite ends_with_app in Hc.
Qed.

Lemma source_count_col_not (c k : string) :
  OpenAQ.ends_with k "_source_count" = false → source_count_col c ≠ k.
Proof. intros Hk <-. unfold source_count_col in Hk. by rewrite ends_with_app in Hk. Qed.

Lemma openaq_fuse_cols g cols row0 n0 :
  hygienic cols →
  ∃ row n,
    foldl (OpenAQ.fuse_col g) (row0, n0) cols = (row, n) ∧
    n = (n0 + length (filter (λ c, valid_rows g c ≠ []) cols))%nat ∧
    (∀ c, c ∈ cols →
       row !! c = Some (loop_value g c) ∧
       row !! source_count_col c
         = match valid_rows g c with
           | [] => row0 !! source_count_col c
           | v => Some (Int (Z.of_nat (length v)))
           end) ∧
    (∀ k, k ∉ cols → (∀ c, c ∈ cols → k ≠ source_count_col c) →
       row !! k = row0 !! k).
Proof.
  induction cols as [|x cols IH] using rev_ind; intros Hh.
  - exists row0, n0. simpl. split; [done|]. split; [lia|].
    split; [intros c Hc; by apply elem_of_nil in Hc | done].
  - apply hygienic_snoc in Hh as (Hh & Hx & Hxc).
    destruct (IH Hh) as (row & n & E & Hn & Hcols & Hother).
    rewrite foldl_snoc, E. unfold OpenAQ.fuse_col, loop_value.
    rewrite filter_app, length_app, filter_cons, filter_nil.
    destruct (valid_rows g x) as [|v0 vs] eqn:Hv; simpl.
    + eexists _, _. split; [done|].
      split; [lia|]. split.
      * intros c [Hc|Hc%list_elem_of_singleton]%elem_of_app.
        -- destruct (Hxc c Hc) as [Hx1 Hx2]. destruct (Hcols c Hc) as [E1 E2].
           assert (x ≠ c) by (by intros ->).
           by rewrite !lookup_insert_ne.
        -- subst c. rewrite Hv. rewrite lookup_insert_eq. split; [done|].
           rewrite lookup_insert_ne by (apply not_eq_sym, source_count_col_ne).
           apply Hother.
           ++ intros Hin. destruct (Hxc _ Hin) as [_ Hne].
              destruct Hh as [_ Hh]. by apply (Hh _ _ Hin Hin).
           ++ intros c Hc ?%source_count_col_inj. by subst.
      * intros k Hk Hks. rewrite !lookup_insert_ne.
        -- apply Hother.
           ++ intros ?. apply Hk, elem_of_app. by left.
           ++ intros c Hc. apply Hks, elem_of_app. by left.
        -- intros <-. apply Hk, elem_of_app. right. by apply list_elem_of_singleton.
    + eexists _, _. split; [done|].
      split; [lia|]. split.
      * intros c [Hc|Hc%list_elem_of_singleton]%elem_of_app.
        -- destruct (Hxc c Hc) as [Hx1 Hx2]. destruct (Hcols c Hc) as [E1 E2].
           assert (x ≠ c) by (by intros ->).
           assert (source_count_col x ≠ source_count_col c)
             by (by intros ?%source_count_col_inj).
           by rewrite !lookup_insert_ne.
        -- subst c. rewrite Hv. rewrite lookup_insert_ne by apply source_count_col_ne.
           by rewrite !lookup_insert_eq.
      * intros k Hk Hks. rewrite !lookup_insert_ne.
        -- apply Hother.
           ++ intros ?. apply Hk, elem_of_app. by left.
           ++ intros c Hc. apply Hks, elem_of_app. by left.
        -- intros <-. apply Hk, elem_of_app. right. by apply list_elem_of_singleton.
        -- intros <-. eapply Hks; [|done]. apply elem_of_app. right.
           by apply list_elem_of_singleton.
Qed.

End FuserOpenAQ.

Section FuserOpenAQMerge.
Import Fuser.

Lemma openaq_combined_rows dm stations :
  rows (concat (OpenAQ.tag_station dm <$> stations))
  = tagged_rows (OpenAQ.tag_row dm) stations.
Proof.
  unfold concat, tagged_rows. simpl.
  induction stations as [|e stations IH]; csimpl; [done|].
  rewrite IH. f_equal.
  unfold OpenAQ.tag_station. simpl. rewrite <- !list_fmap_compose.
  by apply list_fmap_ext.
Qed.

Lemma openaq_combined_has_col dm stations c :
  (∃ e, e ∈ stations ∧ has_col e.2 c = true) →
  has_col (concat (OpenAQ.tag_station dm <$> stations)) c = true.
Proof.
  intros (e & He & Hc). unfold has_col. rewrite bool_decide_eq_true, concat_columns.
  exists (OpenAQ.tag_station dm e). split.
  - apply list_elem_of_fmap. by exists e.
  - unfold OpenAQ.tag_station. rewrite !set_scalar_columns.
    apply bool_decide_eq_true in Hc. tauto.
Qed.

Lemma openaq_tag_row_date dm k r : row_date (OpenAQ.tag_row dm k r) = row_date r.
Proof.
  unfold row_date, OpenAQ.tag_row, get. by rewrite !lookup_insert_ne.
Qed.

Lemma openaq_tag_row_weight dm k r :
  get (OpenAQ.tag_row dm k r) "_weight" = Num (OpenAQ.weight dm k).
Proof. unfold OpenAQ.tag_row, get. by rewrite lookup_insert_eq. Qed.

Lemma openaq_tag_row_other dm k r c :
  c ≠ "_weight" → c ≠ "_sensor_id" →
  get (OpenAQ.tag_row dm k r) c = get r c.
Proof. intros. unfold OpenAQ.tag_row, get. by rewrite !lookup_insert_ne. Qed.

Lemma openaq_fuse_date_spec dm stations cols ncols d :
  let combined := mkFrame cols (tagged_rows (OpenAQ.tag_row dm) stations) in
  let cs := contributions (OpenAQ.weight dm) stations d in
  hygienic ncols →
  (∀ c, c ∈ ncols →
     c ∉ ["date"; "station_count"; "data_quality_score"; "_weight"; "_sensor_id"] ∧
     OpenAQ.ends_with c "_source_count" = false) →
  let row := OpenAQ.fuse_date combined ncols d in
  row_date row = Some d ∧
  (∀ c, c ∈ ncols → c ≠ "data_source" →
     get row c = fused_value (cs c) ∧
     get row (source_count_col c)
       = match cs c with [] => NaN | l => Int (Z.of_nat (length l)) end) ∧
  get row "data_quality_score" = Num (score ncols (λ c, cs c ≠ [])) ∧
  get row "data_source" = Str "weighted_average".
Proof.
  intros combined cs Hh Hn row. unfold row, OpenAQ.fuse_date.
  set (g := group combined d).
  destruct (openaq_fuse_cols g ncols {[ "date" := Date d ]} 0 Hh)
    as (row' & n & E & Hcount & Hcols & Hother).
  rewrite E.
  assert (Htag : ∀ c, c ∈ ncols → ∀ k r, get (OpenAQ.tag_row dm k r) c = get r c).
  { intros c Hc k r. destruct (Hn c Hc) as [Hr _].
    apply openaq_tag_row_other; intros ->; apply Hr; set_solver. }
  assert (Hscore : match ncols with
                   | [] => 0%Q
                   | _ => (inject_Z (Z.of_nat n) / inject_Z (Z.of_nat (length ncols)))%Q
                   end = score ncols (λ c, cs c ≠ [])).
  { unfold score, cs.
    rewrite <- (contributions_filter (OpenAQ.weight dm) _ (openaq_tag_row_date dm)
                  stations d ncols Htag).
    rewrite Hcount. by destruct ncols. }
  rewrite Hscore.
  split; [|split; [|split]].
  - unfold row_date, get. rewrite !lookup_insert_ne by done.
    rewrite Hother; [by rewrite lookup_singleton_eq| |].
    + intros Hd. destruct (Hn _ Hd) as [[] _]. set_solver.
    + intros c Hc. apply not_eq_sym, source_count_col_not. done.
  - intros c Hc Hds. destruct (Hn c Hc) as [Hr He].
    destruct (Hcols c Hc) as [E1 E2].
    unfold get. rewrite !lookup_insert_ne.
    + rewrite E1, E2. simpl. split.
      * apply (loop_value_tagged _ _ (openaq_tag_row_date dm) (openaq_tag_row_weight dm)).
        by apply Htag.
      * assert (Hl : length (valid_rows g c) = length (cs c))
          by apply (valid_rows_tagged (OpenAQ.weight dm) _ (openaq_tag_row_date dm)
                      stations d c (Htag c Hc)).
        destruct (valid_rows g c) as [|v vs]; destruct (cs c) as [|x xs];
          simpl in Hl; try discriminate.
        -- rewrite lookup_singleton_ne; [done|].
           apply not_eq_sym, source_count_col_not. done.
        -- simpl. do 2 f_equal. lia.
    + apply not_eq_sym, source_count_col_not. done.
    + apply not_eq_sym, source_count_col_not. done.
    + apply not_eq_sym, source_count_col_not. done.
    + intros <-. apply Hr. set_solver.
    + by apply not_eq_sym.
    + intros <-. apply Hr. set_solver.
  - unfold get. by rewrite lookup_insert_eq.
  - unfold get. rewrite lookup_insert_ne by done. by rewrite lookup_insert_eq.
Qed.

Lemma openaq_merge_unfold e1 e2 rest info :
  OpenAQ.merge_multi_station_data (e1 :: e2 :: rest) info
  = let stations := e1 :: e2 :: rest in
    let dm := OpenAQ.distance_map info in
    let combined := concat (OpenAQ.tag_station dm <$> stations) in
    let numeric_cols := OpenAQ.numeric_cols combined in
    if negb (has_col combined "date") then None else
    match OpenAQ.fuse_date combined numeric_cols <$> group_keys combined with
    | [] => None
    | weighted_data => Some (frame_of_records weighted_data)
    end.
Proof. by destruct e1. Qed.

Lemma openaq_merge_spec stations info :
  (2 ≤ length stations)%nat →
  Exists (λ e : Z * frame, has_col e.2 "date" = true) stations →
  all_dates stations ≠ [] →
  let dm := OpenAQ.distance_map info in
  let cs := contributions (OpenAQ.weight dm) stations in
  ∃ out,
    OpenAQ.merge_multi_station_data stations info = Some out ∧
    Forall2 (λ d row,
               row_date row = Some d ∧
               (∀ c, c ∈ OpenAQ.tracked dm stations → c ≠ "data_source" →
                  get row c = fused_value (cs d c) ∧
                  get row (source_count_col c)
                    = match cs d c with
                      | [] => NaN
                      | l => Int (Z.of_nat (length l))
                      end) ∧
               get row "data_quality_score"
                 = Num (score (OpenAQ.tracked dm stations) (λ c, cs d c ≠ [])) ∧
               get row "data_source" = Str "weighted_average")
            (all_dates stations) (rows out).
Proof.
  intros Hlen Hdate Hdates dm cs. apply Exists_exists in Hdate.
  destruct stations as [|e1 [|e2 rest]]; simpl in Hlen; [lia|lia|].
  rewrite openaq_merge_unfold.
  set (stations := e1 :: e2 :: rest) in *.
  cbv zeta. fold dm.
  rewrite (openaq_combined_has_col dm stations "date" Hdate). simpl negb. cbv iota.
  set (combined := concat (OpenAQ.tag_station dm <$> stations)).
  assert (Hkeys : group_keys combined = all_dates stations).
  { unfold group_keys, all_dates, combined. rewrite openaq_combined_rows.
    by rewrite (tagged_dates _ (openaq_tag_row_date dm)). }
  rewrite Hkeys.
  assert (HF : Forall2 (λ d row,
               row_date row = Some d ∧
               (∀ c, c ∈ OpenAQ.tracked dm stations → c ≠ "data_source" →
                  get row c = fused_value (cs d c) ∧
                  get row (source_count_col c)
                    = match cs d c with
                      | [] => NaN
                      | l => Int (Z.of_nat (length l))
                      end) ∧
               get row "data_quality_score"
                 = Num (score (OpenAQ.tracked dm stations) (λ c, cs d c ≠ [])) ∧
               get row "data_source" = Str "weighted_average")
            (all_dates stations)
            (OpenAQ.fuse_date combined (OpenAQ.numeric_cols combined)
               <$> all_dates stations)).
  { apply Forall2_fmap_r, Forall_Forall2_diag, Forall_forall. intros d _.
    assert (Hc : combined = mkFrame (columns combined)
                              (tagged_rows (OpenAQ.tag_row dm) stations)).
    { unfold combined at 1. rewrite <- openaq_combined_rows. by destruct (concat _). }
    rewrite Hc at 1.
    apply (openaq_fuse_date_spec dm stations (columns combined)
             (OpenAQ.numeric_cols combined) d).
    - apply openaq_numeric_cols_hygienic, concat_columns_NoDup.
    - intros c. apply openaq_numeric_cols_elem. }
  destruct (all_dates stations) as [|d ds] eqn:Hd; [done|].
  csimpl in *. eexists. split; [done|]. done.
Qed.

End FuserOpenAQMerge.

(** ** Multi-station fuser: score bounds, weights and contributor counts *)

Section FuserArith.
Import Fuser.

Lemma score_bounds (cols : list string) (P : string → Prop) `{∀ c, Decision (P c)} :
  (0 <= score cols P)%Q ∧ (score cols P <= 1)%Q.
Proof.
  unfold score. destruct (Nat.ltb 0 (length cols)) eqn:Hl; [|done].
  apply Nat.ltb_lt in Hl. pose proof (length_filter P cols) as Hf.
  set (a := length (filter P cols)) in *. set (b := length cols) in *.
  assert (Hb : (0 < inject_Z (Z.of_nat b))%Q).
  { change 0%Q with (inject_Z 0). rewrite <- Zlt_Qlt. lia. }
  split.
  - apply Qle_shift_div_l; [done|]. rewrite Qmult_0_l.
    change 0%Q with (inject_Z 0). rewrite <- Zle_Qle. lia.
  - apply Qle_shift_div_r; [done|]. rewrite Qmult_1_l. rewrite <- Zle_Qle. lia.
Qed.




Lemma daily_contributing df d c :
  daily df → (length (contributing df d c) ≤ 1)%nat.
Proof.
  unfold daily, contributing. induction (rows df) as [|r l IH]; intros Hnd; [simpl; lia|].
  rewrite filter_cons. csimpl in Hnd.
  destruct (row_date r) as [d'|] eqn:Hr; csimpl in Hnd.
  - apply NoDup_cons in Hnd as [Hnot Hnd]. specialize (IH Hnd).
    case_decide as Hd; [|done]. destruct Hd as [Hd _]. simplify_eq.
    enough (filter (λ r0, row_date r0 = Some d ∧ notna (get r0 c) = true) l = []) as ->
      by (simpl; lia).
    destruct (filter _ l) as [|r' l'] eqn:Hf; [done|].
    assert (Hin : r' ∈ filter (λ r0, row_date r0 = Some d ∧ notna (get r0 c) = true) l)
      by (rewrite Hf; left).
    apply list_elem_of_filter in Hin as [[Hd' _] Hin].
    exfalso. apply Hnot. apply list_elem_of_omap. by exists r'.
  - rewrite decide_False by (by intros [? _]). by apply IH.
Qed.

Lemma contributions_count {K} (w : K → Q) (stations : list (K * frame)) d c :
  Forall (λ e, daily e.2) stations →
  length (contributions w stations d c) = length (contributing_stations stations d c).
Proof.
  unfold contributions, contributing_stations.
  induction stations as [|e stations IH]; intros Hd; csimpl; [done|].
  inversion Hd as [|? ? He Hs]; subst.
  rewrite length_app, length_fmap, filter_cons, IH by done.
  pose proof (daily_contributing e.2 d c He) as Hle.
  destruct (contributing e.2 d c) as [|r [|r' l]] eqn:Hc; simpl in Hle.
  - by rewrite decide_False by (intros H; by apply H).
  - by rewrite decide_True.
  - lia.
Qed.

End FuserArith.

(** ** Multi-station fuser: exactly one station *)

Section FuserSingle.
Import Fuser.

Lemma set_scalar_has_col k v df c :
  has_col (set_scalar k v df) c = has_col df c || bool_decide (c = k).
Proof.
  apply eq_true_iff_eq. unfold has_col at 1.
  rewrite bool_decide_eq_true, set_scalar_columns, orb_true_iff.
  unfold has_col. by rewrite !bool_decide_eq_true.
Qed.

Lemma noaa_single_fold df l :
  (∀ c, c ∈ l → c ∈ NOAA.core_cols) →
  let step := λ (df : frame) col,
                if has_col df col then set_scalar (source_count_col col) (Int 1) df
                else df in
  let rstep := λ (r : gmap string cell) col,
                 if has_col df col then <[source_count_col col := Int 1]> r else r in
  rows (foldl step df l) = (λ r, foldl rstep r l) <$> rows df ∧
  ∀ c, c ∈ NOAA.core_cols → has_col (foldl step df l) c = has_col df c.
Proof.
  intros Hl step rstep. induction l as [|x l IH] using rev_ind.
  - simpl. split; [by rewrite list_fmap_id|done].
  - destruct IH as [IHr IHc]; [intros c Hc; apply Hl, elem_of_app; by left|].
    assert (Hx : x ∈ NOAA.core_cols)
      by (apply Hl, elem_of_app; right; by apply list_elem_of_singleton).
    rewrite foldl_snoc. unfold step at 1 3. rewrite (IHc x Hx).
    destruct (has_col df x) eqn:Hdx.
    + split.
      * unfold set_scalar. simpl. rewrite IHr, <- list_fmap_compose.
        apply list_fmap_ext. intros i r _. simpl. rewrite foldl_snoc.
        unfold rstep. cbv beta. by rewrite Hdx.
      * intros c Hc. rewrite set_scalar_has_col, (IHc c Hc).
        destruct core_cols_hygienic as [_ Hh].
        rewrite (bool_decide_eq_false_2 _ (Hh c x Hc Hx)). by rewrite orb_false_r.
    + split; [|done]. rewrite IHr. apply list_fmap_ext. intros i r _. simpl.
      rewrite foldl_snoc. unfold rstep. cbv beta. by rewrite Hdx.
Qed.

Lemma noaa_single_rows df :
  rows (NOAA.single_station df) = NOAA.single_row df <$> rows df.
Proof.
  unfold NOAA.single_station, NOAA.single_row.
  assert (Hs : ∀ k v f, rows (set_scalar k v f) = (λ r, <[k := v]> r) <$> rows f)
    by done.
  rewrite !Hs.
  destruct (noaa_single_fold df NOAA.core_cols) as [Hr _]; [by intros|].
  rewrite Hr, <- !list_fmap_compose. by apply list_fmap_ext.
Qed.

Lemma single_row_fold df (r : gmap string cell) l :
  let rstep := λ (r : gmap string cell) col,
                 if has_col df col then <[source_count_col col := Int 1]> r else r in
  (∀ c, c ∈ l → has_col df c = true →
     foldl rstep r l !! source_count_col c = Some (Int 1)) ∧
  (∀ k, (∀ c, c ∈ l → k ≠ source_count_col c) → foldl rstep r l !! k = r !! k).
Proof.
  intros rstep. induction l as [|x l [IH1 IH2]] using rev_ind.
  - split; [intros c Hc; by apply elem_of_nil in Hc | done].
  - split.
    + intros c Hc Hdc. rewrite foldl_snoc. unfold rstep at 1.
      destruct (decide (c = x)) as [->|Hne].
      * rewrite Hdc. by rewrite lookup_insert_eq.
      * apply elem_of_app in Hc as [Hc|Hc%list_elem_of_singleton]; [|done].
        destruct (has_col df x); [|by apply IH1].
        rewrite lookup_insert_ne; [by apply IH1|].
        by intros ?%source_count_col_inj.
    + intros k Hk. rewrite foldl_snoc. unfold rstep at 1.
      assert (Hkl : ∀ c, c ∈ l → k ≠ source_count_col c)
        by (intros c Hc; apply Hk, elem_of_app; by left).
      destruct (has_col df x); [|by apply IH2].
      rewrite lookup_insert_ne; [by apply IH2|].
      apply not_eq_sym, Hk, elem_of_app. right. by apply list_elem_of_singleton.
Qed.

Lemma noaa_single_row_spec df r :
  (∀ k, k ∉ NOAA.single_labels → NOAA.single_row df r !! k = r !! k) ∧
  get (NOAA.single_row df r) "data_source" = Str "single_station" ∧
  get (NOAA.single_row df r) "data_quality_score" = Num 1 ∧
  (∀ c, c ∈ NOAA.core_cols → has_col df c = true →
     get (NOAA.single_row df r) (source_count_col c) = Int 1).
Proof.
  destruct (single_row_fold df r NOAA.core_cols) as [H1 H2].
  unfold NOAA.single_row, get. split; [|split; [|split]].
  - intros k Hk. unfold NOAA.single_labels in Hk.
    rewrite !lookup_insert_ne.
    + apply H2. intros c Hc ->. apply Hk, elem_of_app. right.
      apply list_elem_of_fmap. by exists c.
    + intros <-. apply Hk, elem_of_app. left. in_list.
    + intros <-. apply Hk, elem_of_app. left. in_list.
    + intros <-. apply Hk, elem_of_app. left. in_list.
  - rewrite lookup_insert_ne by done. by rewrite lookup_insert_eq.
  - by rewrite lookup_insert_eq.
  - intros c Hc Hdc. destruct (core_cols_reserved c Hc) as [_ Hr].
    rewrite !lookup_insert_ne.
    + by rewrite (H1 c Hc Hdc).
    + intros E. apply Hr. rewrite <- E. unfold NOAA.reserved. in_list.
    + intros E. apply Hr. rewrite <- E. unfold NOAA.reserved. in_list.
    + intros E. apply Hr. rewrite <- E. unfold NOAA.reserved. in_list.
Qed.

End FuserSingle.

(** ** Multi-station fuser: properties of the two fusers *)

Section FuserProperties.
Import Fuser.







(** The air-quality fuser scores each fused day by the fraction of tracked
    fields with at least one non-null contribution, between 0 and 1. *)
Theorem openaq_quality_score stations info :
  (2 ≤ length stations)%nat →
  Exists (λ e : Z * frame, has_col e.2 "date" = true) stations →
  all_dates stations ≠ [] →
  let dm := OpenAQ.distance_map info in
  ∃ out,
    OpenAQ.merge_multi_station_data stations info = Some out ∧
    Forall2 (λ d row,
               let s := score (OpenAQ.tracked dm stations)
                          (λ c, contributions (OpenAQ.weight dm) stations d c ≠ []) in
               get row "data_quality_score" = Num s ∧ (0 <= s)%Q ∧ (s <= 1)%Q)
            (all_dates stations) (rows out).
Proof.
  intros Hlen Hdate Hd dm.
  destruct (openaq_merge_spec stations info Hlen Hdate Hd) as (out & Hout & HF).
  exists out. split; [done|].
  eapply Forall2_impl; [exact HF|]. simpl. intros d row (_ & _ & H3 & _).
  split; [done|]. apply score_bounds.
Qed.

Lemma openaq_quality_score_witness :
  let dm := OpenAQ.distance_map pm25_info in
  ∃ out,
    OpenAQ.merge_multi_station_data pm25_stations pm25_info = Some out ∧
    Forall2 (λ d row,
               let s := score (OpenAQ.tracked dm pm25_stations)
                          (λ c, contributions (OpenAQ.weight dm) pm25_stations d c ≠ []) in
               get row "data_quality_score" = Num s ∧ (0 <= s)%Q ∧ (s <= 1)%Q)
            (all_dates pm25_stations) (rows out).
Proof.
  apply openaq_quality_score.
  - simpl. lia.
  - apply (bool_decide_unpack _). vm_compute. exact I.
  - vm_compute. discriminate.
Defined.

End FuserProperties.

(** ** Multi-station fuser: range of a fused value, missing columns, one station *)

Section FuserRange.
Import Fuser.









End FuserRange.

Section FuserEdges.
Import Fuser.

Lemma noaa_fuse_date_no_lat qc combined ncols d :
  has_col combined "lat" = false → NOAA.fuse_date qc combined ncols d = None.
Proof.
  intros Hlat. unfold NOAA.fuse_date.
  destruct (foldl _ _ ncols) as [row n]. by rewrite Hlat.
Qed.

(** With two or more weather stations of which none has a [lat] column the
    fuser does not return: pandas raises a KeyError, on [group["lat"]] for
    the first day, or on sorting the empty result by date when there is no
    dated row at all. *)
Theorem noaa_merge_without_lat stations info qc :
  (2 ≤ length stations)%nat →
  Forall (λ e : string * frame, has_col e.2 "lat" = false) stations →
  NOAA.merge_multi_station_data stations info qc = None.
Proof.
  intros Hlen Hlat.
  destruct stations as [|e1 [|e2 rest]]; simpl in Hlen; [lia|lia|].
  rewrite noaa_merge_unfold. cbv zeta.
  set (stations := e1 :: e2 :: rest) in *.
  destruct (negb (has_col (concat (NOAA.tag_station (NOAA.distance_map info)
                                     <$> stations)) "date")); [done|].
  set (combined := mkFrame _ _).
  assert (Hc : has_col combined "lat" = false).
  { apply not_true_iff_false. intros H.
    change (has_col combined "lat")
      with (has_col (concat (NOAA.tag_station (NOAA.distance_map info) <$> stations))
              "lat") in H.
    apply noaa_combined_has_col in H as [[_ [?|?]]|(e & He & H)]; [done|done|].
    rewrite Forall_forall in Hlat. by rewrite (Hlat e He) in H. }
  destruct (group_keys combined) as [|d ds]; [done|].
  csimpl. by rewrite (noaa_fuse_date_no_lat _ _ _ _ Hc).
Qed.

Lemma noaa_merge_without_lat_witness :
  NOAA.merge_multi_station_data
    [("A", mixed_weather); ("B", mixed_weather)] weather_info true = None.
Proof.
  apply noaa_merge_without_lat.
  - simpl. lia.
  - apply (bool_decide_unpack _). vm_compute. exact I.
Defined.

(** With exactly one weather station the fuser returns that station's
    records, each kept as it was apart from the labels it adds:
    [station_count] 1, [data_source] "single_station", [data_quality_score]
    1 (whatever fields are null), and a source count of 1 for every core
    field the frame has. *)
Theorem noaa_single_station_copy sid df info qc :
  ∃ out,
    NOAA.merge_multi_station_data [(sid, df)] info qc = Some out ∧
    Forall2 (λ r r',
               (∀ k, k ∉ NOAA.single_labels → r' !! k = r !! k) ∧
               get r' "station_count" = Int 1 ∧
               get r' "data_source" = Str "single_station" ∧
               get r' "data_quality_score" = Num 1 ∧
               ∀ c, c ∈ NOAA.core_cols → has_col df c = true →
                 get r' (source_count_col c) = Int 1)
            (rows df) (rows out).
Proof.
  exists (NOAA.single_station df). split; [done|].
  rewrite noaa_single_rows. apply Forall2_fmap_r, Forall_Forall2_diag, Forall_forall.
  intros r _. destruct (noaa_single_row_spec df r) as (H1 & H2 & H3 & H4).
  split; [done|]. split; [|done].
  unfold NOAA.single_row, get. rewrite !lookup_insert_ne by done.
  by rewrite lookup_insert_eq.
Qed.

Lemma noaa_single_station_copy_witness :
  ∃ out,
    NOAA.merge_multi_station_data [("A", weather_a)] weather_info true = Some out ∧
    Forall2 (λ r r',
               (∀ k, k ∉ NOAA.single_labels → r' !! k = r !! k) ∧
               get r' "station_count" = Int 1 ∧
               get r' "data_source" = Str "single_station" ∧
               get r' "data_quality_score" = Num 1 ∧
               ∀ c, c ∈ NOAA.core_cols → has_col weather_a c = true →
                 get r' (source_count_col c) = Int 1)
            (rows weather_a) (rows out).
Proof. apply noaa_single_station_copy. Defined.

End FuserEdges.

(** ** Concentration units *)

Section UnitsProperties.
Import Units.

Ltac split_units :=
  repeat match goal with
         | |- context [String.eqb ?a ?b] => destruct (String.eqb a b) eqn:?
         end.

(** [_convert_unit] multiplies the value by a positive factor that depends
    on the two units only (1, 1000, 1000000 or their inverses): it keeps
    zero, sign and order of the readings. *)
Theorem convert_unit_scales (value : Q) (from_unit to_unit : string) :
  (_convert_unit value from_unit to_unit == value * factor from_unit to_unit)%Q ∧
  (0 < factor from_unit to_unit)%Q.
Proof.
  unfold factor, _convert_unit. split_units; simpl; split; try reflexivity;
    try (field; discriminate); ring.
Qed.

(** Conversion keeps the order of two readings in the same unit. *)
Theorem convert_unit_monotone (v1 v2 : Q) (from_unit to_unit : string) :
  (v1 < v2)%Q →
  (_convert_unit v1 from_unit to_unit < _convert_unit v2 from_unit to_unit)%Q.
Proof.
  intros Hlt.
  destruct (convert_unit_scales v1 from_unit to_unit) as [E1 Hf].
  destruct (convert_unit_scales v2 from_unit to_unit) as [E2 _].
  rewrite E1, E2. by apply Qmult_lt_compat_r.
Qed.

Lemma convert_unit_monotone_witness :
  (_convert_unit 40 "ppb" "ppm" < _convert_unit 70 "ppb" "ppm")%Q.
Proof. apply convert_unit_monotone. reflexivity. Defined.

(** Only conversions into µg/m³ and into ppm exist: towards any other unit,
    and from any unit outside the two small tables, the value is returned
    as it is (so a reading in ppm asked in ppb stays in ppm). *)
Theorem convert_unit_passthrough (value : Q) (from_unit to_unit : string) :
  (to_unit ≠ "µg/m³" ∧ to_unit ≠ "ppm") ∨
  from_unit ∉ ["mg/m³"; "g/m³"; "ppb"; "ppt"] →
  _convert_unit value from_unit to_unit = value.
Proof.
  intros H. unfold _convert_unit. split_units; try reflexivity; exfalso;
    repeat match goal with
           | E : String.eqb _ _ = true |- _ => apply String.eqb_eq in E; subst
           end;
    destruct H as [[H1 H2]|H]; try done; apply H; in_list.
Qed.

Lemma convert_unit_passthrough_witness :
  _convert_unit 3 "ppm" "ppb" = 3%Q.
Proof. apply convert_unit_passthrough. left. split; discriminate. Defined.

End UnitsProperties.

(** ** Coverage filter *)

Section CoverageProperties.
Import Coverage.

Lemma keep_station_survives min cc acc e :
  keep_station min cc acc e = if survives min cc e then acc ++ [e] else acc.
Proof.
  unfold keep_station, survives.
  destruct (filter _ cc); [done|]. by destruct (meets _ _).
Qed.

Lemma filter_low_coverage_filter stations min core :
  filter_low_coverage_stations stations min core
  = filter (λ e, survives min (default default_core_columns core) e = true) stations.
Proof.
  unfold filter_low_coverage_stations.
  set (cc := default default_core_columns core).
  enough (G : ∀ acc, foldl (keep_station min cc) acc stations
                     = acc ++ filter (λ e, survives min cc e = true) stations)
    by apply (G []).
  induction stations as [|e stations IH]; intros acc; simpl.
  - by rewrite app_nil_r.
  - rewrite IH, keep_station_survives, filter_cons.
    destruct (survives min cc e) eqn:Hs.
    + rewrite decide_True by done. by rewrite <- app_assoc.
    + by rewrite decide_False by done.
Qed.


(** Raising the threshold can only drop stations: what survives the higher
    threshold survives the lower one. *)
Theorem coverage_filter_monotone stations min1 min2 core :
  (min1 <= min2)%Q →
  sublist (filter_low_coverage_stations stations min2 core)
          (filter_low_coverage_stations stations min1 core).
Proof.
  intros Hle. rewrite !filter_low_coverage_filter.
  set (cc := default default_core_columns core).
  assert (Himp : ∀ e, survives min2 cc e = true → survives min1 cc e = true).
  { intros e. unfold survives. destruct (filter _ cc); [done|].
    unfold meets. destruct (coverage _ _) as [q|]; [|done].
    rewrite !Qle_bool_iff. intros H. by eapply Qle_trans. }
  induction stations as [|e stations IH]; [done|].
  rewrite !filter_cons.
  destruct (decide (survives min2 cc e = true)) as [H2|H2].
  - rewrite decide_True by auto. by apply sublist_skip.
  - destruct (decide (survives min1 cc e = true)); [by apply sublist_cons|done].
Qed.

Lemma coverage_filter_monotone_witness :
  sublist (filter_low_coverage_stations weather_stations (3 # 4) None)
          (filter_low_coverage_stations weather_stations (1 # 4) None).
Proof. apply coverage_filter_monotone. discriminate. Defined.

End CoverageProperties.

Section CoverageBounds.
Import Coverage.

Lemma count_true_le (mask : list bool) : (count_true mask ≤ length mask)%nat.
Proof. unfold count_true. apply length_filter. Qed.

Lemma count_true_all (mask : list bool) :
  Forall (λ b, b = true) mask → count_true mask = length mask.
Proof.
  unfold count_true. induction 1 as [|b mask Hb _ IH]; [done|].
  rewrite filter_cons, decide_True by done. simpl. by rewrite IH.
Qed.

Lemma col_mean_bounds df c :
  rows df ≠ [] → (0 <= col_mean df c)%Q ∧ (col_mean df c <= 1)%Q.
Proof.
  intros Hne. unfold col_mean.
  pose proof (count_true_le (notna <$> column df c)) as Hle.
  unfold column in Hle. rewrite !length_fmap in Hle.
  set (a := count_true _) in *. set (n := length (rows df)) in *.
  assert (Hn : (0 < n)%nat) by (unfold n; destruct (rows df); [done|simpl; lia]).
  assert (Hb : (0 < inject_Z (Z.of_nat n))%Q).
  { change 0%Q with (inject_Z 0). rewrite <- Zlt_Qlt. lia. }
  split.
  - apply Qle_shift_div_l; [done|]. rewrite Qmult_0_l.
    change 0%Q with (inject_Z 0). rewrite <- Zle_Qle. lia.
  - apply Qle_shift_div_r; [done|]. rewrite Qmult_1_l. rewrite <- Zle_Qle. lia.
Qed.

Lemma Qsum_bounds (l : list Q) :
  Forall (λ q, (0 <= q)%Q ∧ (q <= 1)%Q) l →
  (0 <= Fuser.Qsum l)%Q ∧ (Fuser.Qsum l <= inject_Z (Z.of_nat (length l)))%Q.
Proof.
  induction 1 as [|q l [H0 H1] _ [IH0 IH1]]; [split; apply Qle_refl|].
  change (Fuser.Qsum (q :: l)) with (q + Fuser.Qsum l)%Q.
  change (length (q :: l)) with (S (length l)).
  split.
  - rewrite <- (Qplus_0_r 0). by apply Qplus_le_compat.
  - rewrite Nat2Z.inj_succ, <- Z.add_1_l, inject_Z_plus.
    by apply Qplus_le_compat.
Qed.

Lemma coverage_bounds df cols q :
  cols ≠ [] → coverage df cols = Some q → (0 <= q)%Q ∧ (q <= 1)%Q.
Proof.
  intros Hc. unfold coverage. destruct (rows df) as [|r l] eqn:Hr; [done|].
  intros [= <-].
  destruct (Qsum_bounds (col_mean df <$> cols)) as [H0 H1].
  { apply Forall_fmap, Forall_forall. intros c _. apply col_mean_bounds.
    by rewrite Hr. }
  rewrite length_fmap in H1.
  assert (Hb : (0 < inject_Z (Z.of_nat (length cols)))%Q).
  { change 0%Q with (inject_Z 0). rewrite <- Zlt_Qlt.
    destruct cols; [done|simpl; lia]. }
  split.
  - apply Qle_shift_div_l; [done|]. by rewrite Qmult_0_l.
  - apply Qle_shift_div_r; [done|]. by rewrite Qmult_1_l.
Qed.

(** Coverage is a fraction, so a threshold above 1 drops every station. *)
Theorem coverage_filter_above_one stations min core :
  (1 < min)%Q → filter_low_coverage_stations stations min core = [].
Proof.
  intros Hmin. rewrite filter_low_coverage_filter.
  set (cc := default default_core_columns core).
  induction stations as [|e stations IH]; [done|].
  rewrite filter_cons, IH, decide_False; [done|].
  unfold survives. destruct (filter _ cc) as [|c cs] eqn:Hf; [done|].
  unfold meets. destruct (coverage _ _) as [q|] eqn:Hq; [|done].
  apply coverage_bounds in Hq as [_ Hq]; [|done].
  rewrite Qle_bool_iff. intros Hle. apply (Qlt_irrefl 1).
  eapply Qlt_le_trans; [exact Hmin|]. by eapply Qle_trans.
Qed.

Lemma coverage_filter_above_one_witness :
  filter_low_coverage_stations weather_stations (3 # 2) None = [].
Proof. apply coverage_filter_above_one. reflexivity. Defined.

Lemma Qsum_ones (l : list Q) :
  Forall (λ q, (q == 1)%Q) l → (Fuser.Qsum l == inject_Z (Z.of_nat (length l)))%Q.
Proof.
  induction 1 as [|q l Hq _ IH]; [reflexivity|].
  change (Fuser.Qsum (q :: l)) with (q + Fuser.Qsum l)%Q.
  change (length (q :: l)) with (S (length l)).
  rewrite Nat2Z.inj_succ, <- Z.add_1_l, inject_Z_plus, Hq, IH. reflexivity.
Qed.

(** A station with at least one row whose available core columns hold no
    null at all has coverage 1 and survives every threshold up to 1. *)
Theorem coverage_filter_keeps_complete stations min core e :
  let cc := default default_core_columns core in
  let available := filter (λ c, has_col e.2 c = true) cc in
  e ∈ stations →
  rows e.2 ≠ [] →
  available ≠ [] →
  complete e.2 available →
  (min <= 1)%Q →
  e ∈ filter_low_coverage_stations stations min core.
Proof.
  intros cc available He Hrows Hav Hcomp Hmin.
  rewrite filter_low_coverage_filter. apply list_elem_of_filter. split; [|done].
  unfold survives. fold cc. fold available.
  destruct available as [|c cs] eqn:Hf; [done|]. rewrite <- Hf in *.
  unfold meets, coverage. destruct (rows e.2) as [|r l] eqn:Hr; [done|].
  rewrite <- Hr in *. apply Qle_bool_iff. eapply Qle_trans; [exact Hmin|].
  assert (Hb : (0 < inject_Z (Z.of_nat (length available)))%Q).
  { change 0%Q with (inject_Z 0). rewrite <- Zlt_Qlt. rewrite Hf. simpl. lia. }
  apply Qle_shift_div_l; [done|]. rewrite Qmult_1_l.
  rewrite Qsum_ones; [rewrite length_fmap; apply Qle_refl|].
  apply Forall_fmap, Forall_forall. intros c' Hc'. simpl.
  unfold complete in Hcomp. rewrite Forall_forall in Hcomp. specialize (Hcomp c' Hc').
  unfold col_mean. rewrite count_true_all.
  - unfold column. rewrite !length_fmap. field.
    intros H0. assert (Hn : (0 < length (rows e.2))%nat)
      by (rewrite Hr; simpl; lia).
    revert H0. unfold Qeq. simpl. lia.
  - unfold column. apply Forall_fmap, Forall_fmap.
    eapply Forall_impl; [exact Hcomp|]. done.
Qed.

Lemma coverage_filter_keeps_complete_witness :
  ("B", weather_b)
  ∈ filter_low_coverage_stations weather_stations 1 (Some ["temp_avg_c"; "lat"]).
Proof.
  apply coverage_filter_keeps_complete.
  - in_list.
  - discriminate.
  - vm_compute. discriminate.
  - apply (bool_decide_unpack _). vm_compute. exact I.
  - apply Qle_refl.
Defined.

End CoverageBounds.

(** ** Point-HTTP client *)

Section ClientProperties.
Import Client.
Variable cache_dir : string.

Lemma remove_char_idem c s : remove_char c (remove_char c s) = remove_char c s.
Proof.
  induction s as [|a s IH]; simpl; [done|].
  destruct (Ascii.eqb a c) eqn:Ha; [done|]. simpl. by rewrite Ha, IH.
Qed.

Lemma string_app_nonempty (s t : string) : t ≠ "" → s +:+ t ≠ "".
Proof.
  intros Ht H. apply (f_equal String.length) in H.
  rewrite string_length_app in H. destruct t; [done|]. simpl in H. lia.
Qed.

Lemma path_join_nonempty a b : b ≠ "" → path_join a b ≠ "".
Proof.
  intros Hb. unfold path_join. destruct (String.prefix "/" b); [done|].
  destruct (_ || _); [by apply string_app_nonempty|].
  by apply string_app_nonempty, string_app_nonempty.
Qed.

Lemma output_path_nonempty year sid od : output_path_of cache_dir year sid od ≠ "".
Proof.
  unfold output_path_of. apply path_join_nonempty.
  apply string_app_nonempty. done.
Qed.

(** Everything [download_year] can do, by cases. *)
Lemma download_year_cases E year sid od uc st :
  let p := output_path_of cache_dir year sid od in
  let url := url_of year sid in
  let st1 := mkState (files st) (requests st ++ [url]) in
  (uc = true ∧ path_exists st p = true ∧
   download_year cache_dir E year sid od uc st = (Some p, st))
  ∨ ((uc = false ∨ path_exists st p = false) ∧
     ((∃ status content,
         net E (requests st) url = Answered status content ∧
         ((400 <=? status)%Z && (status <? 600)%Z = false) ∧
         writable E p = true ∧
         download_year cache_dir E year sid od uc st
         = (Some p, mkState (<[p := content]> (files st)) (requests st ++ [url])))
      ∨ download_year cache_dir E year sid od uc st = (None, st1))).
Proof.
  intros p url st1. unfold download_year. fold p. fold url.
  destruct (uc && path_exists st p) eqn:Hc.
  - left. apply andb_true_iff in Hc as [-> Hp]. done.
  - right. split.
    { apply andb_false_iff in Hc as [->|Hp]; [by left|by right]. }
    unfold fetch, mbind, M_bind, bind, requests_get.
    destruct (net E (requests st) url) as [status content|] eqn:Hnet; [|by right].
    simpl. unfold raise_for_status.
    destruct ((400 <=? status)%Z && (status <? 600)%Z) eqn:Hs; [by right|].
    simpl. unfold write_file. simpl.
    destruct (writable E p) eqn:Hw; [|by right].
    left. exists status, content. done.
Qed.

Lemma download_year_some E E' year sid od uc st p st' :
  download_year cache_dir E year sid od uc st = (Some p, st') →
  p = output_path_of cache_dir year sid od ∧
  path_exists st' p = true ∧
  download_year cache_dir E' year sid od true st' = (Some p, st').
Proof.
  intros H.
  destruct (download_year_cases E year sid od uc st)
    as [(_ & Hp & E1)|(_ & [(s & c & _ & _ & _ & E1)|E1])];
    rewrite E1 in H; simplify_eq.
  - split; [done|]. split; [done|].
    unfold download_year. by rewrite Hp.
  - assert (Hp : path_exists
                   (mkState (<[output_path_of cache_dir year sid od := c]> (files st))
                            (requests st ++ [url_of year sid]))
                   (output_path_of cache_dir year sid od) = true).
    { unfold path_exists. simpl. apply bool_decide_eq_true.
      rewrite lookup_insert_eq. by eexists. }
    split; [done|]. split; [done|].
    unfold download_year. by rewrite Hp.
Qed.

(** A path returned by [download_year] is the cache path of that year and
    station, and the file is on disk afterwards; calling again with the
    cache enabled then returns the same path without any request, whatever
    the network would answer. *)
Theorem download_year_then_cached E E' year sid od uc st p st' :
  download_year cache_dir E year sid od uc st = (Some p, st') →
  p = output_path_of cache_dir year sid od ∧
  path_exists st' p = true ∧
  download_year cache_dir E' year sid od true st' = (Some p, st').
Proof. apply download_year_some. Qed.


(** Dashes in the station id do not matter: "USAF-WBAN" and "USAFWBAN"
    address the same URL and the same cache file. *)
Theorem download_year_ignores_dashes E year sid od uc st :
  download_year cache_dir E year (remove_char dash sid) od uc st
  = download_year cache_dir E year sid od uc st.
Proof.
  unfold download_year, output_path_of, url_of. by rewrite remove_char_idem.
Qed.

End ClientProperties.

Section ClientWitnesses.
Import Client.

Lemma download_year_then_cached_witness :
  let p := output_path_of "cache/noaa" 2023 "725030-14732" None in
  let st' := (download_year "cache/noaa" sample_env 2023 "725030-14732" None true
                empty_disk).2 in
  p = output_path_of "cache/noaa" 2023 "725030-14732" None ∧
  path_exists st' p = true ∧
  download_year "cache/noaa" sample_env 2023 "725030-14732" None true st'
  = (Some p, st').
Proof.
  intros p st'.
  apply (download_year_then_cached "cache/noaa" sample_env sample_env 2023
           "725030-14732" None true empty_disk p st').
  vm_compute. reflexivity.
Defined.


End ClientWitnesses.

Section ClientCity.
Import Client.
Variable cache_dir : string.

Lemma download_year_grows E year sid od uc st r st' :
  download_year cache_dir E year sid od uc st = (r, st') →
  (∀ p, path_exists st p = true → path_exists st' p = true) ∧
  (∃ l, requests st' = requests st ++ l ∧ (length l ≤ 1)%nat).
Proof.
  intros H.
  destruct (download_year_cases cache_dir E year sid od uc st)
    as [(_ & Hp & E1)|(_ & [(s & c & _ & _ & _ & E1)|E1])];
    rewrite E1 in H; simplify_eq.
  - split; [done|]. exists []. split; [by rewrite app_nil_r | simpl; lia].
  - split; [|eexists; split; [done|simpl; lia]].
    intros p. unfold path_exists. simpl. rewrite !bool_decide_eq_true.
    intros [v Hv]. destruct (decide (output_path_of cache_dir year sid od = p)) as [->|Hne].
    + rewrite lookup_insert_eq. by eexists.
    + rewrite lookup_insert_ne by done. by eexists.
  - split; [done|]. eexists; split; [done|simpl; lia].
Qed.

Lemma city_step_spec E year od downloaded st sid :
  let p := output_path_of cache_dir year sid od in
  ∃ st', (∀ q, path_exists st q = true → path_exists st' q = true) ∧
         (∃ l, requests st' = requests st ++ l ∧ (length l ≤ 1)%nat) ∧
         ((city_step cache_dir E year od (downloaded, st) sid = (downloaded ++ [p], st') ∧
           path_exists st' p = true ∧
           (path_exists st p = true → st' = st))
          ∨ (city_step cache_dir E year od (downloaded, st) sid = (downloaded, st') ∧
             path_exists st p = false)).
Proof.
  intros p. unfold city_step.
  destruct (download_year cache_dir E year sid od true st) as [r st'] eqn:Hd.
  exists st'. destruct (download_year_grows _ _ _ _ _ _ _ _ Hd) as [Hg Hr].
  split; [done|]. split; [done|].
  destruct r as [q|].
  - destruct (download_year_some cache_dir E E year sid od true st q st' Hd) as (-> & Hq & Hst).
    left. unfold truthy. fold p.
    assert (Hne : String.eqb p "" = false)
      by apply String.eqb_neq, output_path_nonempty.
    rewrite Hne. simpl. split; [done|]. split; [done|].
    intros Hp. unfold download_year in Hd. fold p in Hd. rewrite Hp in Hd.
    simpl in Hd. by simplify_eq.
  - right. split; [done|].
    destruct (path_exists st p) eqn:Hp; [|done].
    unfold download_year in Hd. fold p in Hd. rewrite Hp in Hd. simpl in Hd. done.
Qed.

End ClientCity.

Section ClientCityRuns.
Import Client.
Variable cache_dir : string.

Lemma sublist_full {A} (l1 l2 : list A) :
  sublist l1 l2 → (length l2 ≤ length l1)%nat → l1 = l2.
Proof.
  induction 1 as [|x l1 l2 _ IH|x l1 l2 Hs _]; simpl; intros Hl.
  - done.
  - f_equal. apply IH. lia.
  - apply sublist_length in Hs. lia.
Qed.

Lemma city_fold E year od ids acc st :
  ∃ paths st',
    foldl (city_step cache_dir E year od) (acc, st) ids = (acc ++ paths, st') ∧
    sublist paths ((λ sid, output_path_of cache_dir year sid od) <$> ids) ∧
    Forall (λ p, path_exists st' p = true) paths ∧
    (∀ q, path_exists st q = true → path_exists st' q = true) ∧
    (∃ l, requests st' = requests st ++ l ∧ (length l ≤ length ids)%nat).
Proof.
  revert acc st. induction ids as [|sid ids IH]; intros acc st.
  - exists [], st. simpl. rewrite app_nil_r. split; [done|]. split; [done|].
    split; [constructor|]. split; [done|]. exists []. by rewrite app_nil_r.
  - destruct (city_step_spec cache_dir E year od acc st sid)
      as (st1 & Hg1 & (l1 & Hr1 & Hl1) & Hstep).
    cbn [foldl].
    destruct Hstep as [(Hs & Hp & _)|(Hs & _)]; rewrite Hs.
    + destruct (IH (acc ++ [output_path_of cache_dir year sid od]) st1)
        as (paths & st' & Hf & Hsub & Hall & Hg & (l & Hr & Hl)).
      exists (output_path_of cache_dir year sid od :: paths), st'.
      split; [by rewrite Hf, <- app_assoc|]. split; [csimpl; by apply sublist_skip|].
      split; [constructor; [by apply Hg|done]|]. split; [by auto|].
      exists (l1 ++ l). rewrite Hr, Hr1, app_assoc. split; [done|].
      rewrite length_app. simpl. lia.
    + destruct (IH acc st1) as (paths & st' & Hf & Hsub & Hall & Hg & (l & Hr & Hl)).
      exists paths, st'. split; [done|]. split; [csimpl; by apply sublist_cons|].
      split; [done|]. split; [by auto|].
      exists (l1 ++ l). rewrite Hr, Hr1, app_assoc. split; [done|].
      rewrite length_app. simpl. lia.
Qed.

Lemma city_fold_warm E year od ids acc st :
  Forall (λ sid, path_exists st (output_path_of cache_dir year sid od) = true) ids →
  foldl (city_step cache_dir E year od) (acc, st) ids
  = (acc ++ ((λ sid, output_path_of cache_dir year sid od) <$> ids), st).
Proof.
  revert acc. induction ids as [|sid ids IH]; intros acc Hall.
  - simpl. by rewrite app_nil_r.
  - inversion Hall as [|? ? Hsid Hids]; subst. cbn [foldl].
    destruct (city_step_spec cache_dir E year od acc st sid)
      as (st1 & _ & _ & [(Hs & _ & Hst)|(_ & Hp)]).
    + rewrite Hs, (Hst Hsid), IH by done. csimpl. by rewrite <- app_assoc.
    + by rewrite Hsid in Hp.
Qed.


(** When a run of [download_city_year] got a file for every station id,
    running it again on the resulting disk makes no request, changes
    nothing and returns the same paths, whatever the network answers. *)
Theorem download_city_year_warm E E' city city' year ids od st :
  let r := download_city_year cache_dir E city year ids od st in
  length r.1 = length ids →
  download_city_year cache_dir E' city' year ids od r.2 = r.
Proof.
  unfold download_city_year.
  destruct (city_fold E year od ids [] st) as (paths & st' & Hf & Hsub & Hall & _).
  rewrite Hf. simpl. intros Hlen.
  assert (Hp : paths = (λ sid, output_path_of cache_dir year sid od) <$> ids).
  { apply sublist_full; [done|]. rewrite length_fmap. lia. }
  subst paths. rewrite city_fold_warm; [done|].
  by apply Forall_fmap in Hall.
Qed.

End ClientCityRuns.

Section ClientCityWitness.
Import Client.

Lemma download_city_year_warm_witness :
  let r := download_city_year "cache/noaa" sample_env "Boston" 2023
             ["725030-14732"] None empty_disk in
  download_city_year "cache/noaa" sample_env "Boston" 2023 ["725030-14732"] None r.2
  = r.
Proof.
  apply (download_city_year_warm "cache/noaa" sample_env sample_env).
  vm_compute. reflexivity.
Defined.

End ClientCityWitness.

(** ** Bulk-archive client *)

Section S3Listing.
Import S3.

(** [_list_s3_files] returns only keys ending in ".csv.gz", all of them
    taken from the listing for the year (or month) prefix, in ascending
    order; when the listing call raises, or the response has no contents,
    it returns the empty list. *)
Theorem list_s3_files_sorted_csv E location_id year month :
  let keys := _list_s3_files E location_id year month in
  Forall (λ k, is_csv_gz k = true) keys ∧
  Sorted String.le keys ∧
  (∀ k, k ∈ keys ↔
        ∃ listed, list_objects E (prefix_of location_id year month) = Some (Some listed) ∧
                  k ∈ listed ∧ is_csv_gz k = true) ∧
  (list_objects E (prefix_of location_id year month) = None → keys = []) ∧
  (list_objects E (prefix_of location_id year month) = Some None → keys = []).
Proof.
  unfold _list_s3_files.
  destruct (list_objects E (prefix_of location_id year month)) as [[listed|]|] eqn:Hl;
    simpl.
  - split; [|split; [|split; [|split]]]; try done.
    + apply Forall_forall. intros k Hk.
      rewrite merge_sort_Permutation in Hk. by apply list_elem_of_filter in Hk as [? _].
    + apply Sorted_merge_sort. apply _.
    + intros k. rewrite merge_sort_Permutation, list_elem_of_filter. split.
      * intros [? ?]. by exists listed.
      * intros (l' & [= <-] & ? & ?). done.
  - split; [constructor|]. split; [constructor|]. split; [|done].
    intros k. split; [by intros ?%elem_of_nil | by intros (? & [=] & _)].
  - split; [constructor|]. split; [constructor|]. split; [|done].
    intros k. split; [by intros ?%elem_of_nil | by intros (? & [=] & _)].
Qed.

End S3Listing.

Section S3Batch.
Import S3.
Context (E : env) (dir : list string) (loc year : Z) (uc : bool).

Notation step := (download_single_file E dir loc year uc).
Notation lp := (local_path_of dir loc year).
Notation on_disk st p := (is_Some (files st !! p)).

(** One task, by cases. *)
Lemma step_cases b st k :
  (obtained E dir loc year uc st k = true ∧
   ∃ st', step (b, st) k
          = (mkBatch (downloaded_files b ++ [lp k]) (S (success_count b)) (failed_count b),
             st') ∧
          on_disk st' (lp k) ∧
          (∀ p, on_disk st p → on_disk st' p) ∧
          (∀ p, p ≠ lp k → files st' !! p = files st !! p) ∧
          (uc = true → on_disk st (lp k) → st' = st))
  ∨ (obtained E dir loc year uc st k = false ∧
     step (b, st) k
     = (mkBatch (downloaded_files b) (success_count b) (S (failed_count b)),
        mkState (files st) (fetched st ++ [k]))).
Proof.
  unfold download_single_file, obtained.
  destruct (uc && bool_decide (on_disk st (lp k))) eqn:Hc; simpl.
  - left. split; [done|]. exists st. split; [done|].
    apply andb_true_iff in Hc as [_ Hc%bool_decide_eq_true]. done.
  - destruct (get_object E k) as [content|] eqn:Hg; simpl; [|by right].
    destruct (writable E (lp k)) eqn:Hw; [|by right].
    left. split; [done|]. eexists. split; [done|]. simpl.
    split; [by rewrite lookup_insert_eq|]. split; [|split].
    + intros p Hp. destruct (decide (lp k = p)) as [->|Hne].
      * by rewrite lookup_insert_eq.
      * by rewrite lookup_insert_ne.
    + intros p Hp. by rewrite lookup_insert_ne.
    + intros -> Hd. apply andb_false_iff in Hc as [?|Hc]; [done|].
      by apply bool_decide_eq_false in Hc.
Qed.

Lemma batch_accounting_fold keys b st :
  let r := foldl step (b, st) keys in
  length (downloaded_files b) = success_count b →
  Forall (λ p, on_disk st p) (downloaded_files b) →
  length (downloaded_files r.1) = success_count r.1 ∧
  (success_count r.1 + failed_count r.1
   = success_count b + failed_count b + length keys)%nat ∧
  (failed_count b ≤ failed_count r.1)%nat ∧
  Forall (λ p, on_disk r.2 p) (downloaded_files r.1) ∧
  (∀ p, on_disk st p → on_disk r.2 p) ∧
  (failed_count r.1 = failed_count b → Forall (λ k, on_disk r.2 (lp k)) keys).
Proof.
  revert b st. induction keys as [|k keys IH]; intros b st r Hlen Hall.
  - simpl in *. repeat split; try done; lia.
  - subst r. cbn [foldl].
    destruct (step_cases b st k) as [(_ & st' & Hs & Hk & Hmono & _)|(_ & Hs)];
      rewrite Hs.
    + edestruct (IH (mkBatch (downloaded_files b ++ [lp k]) (S (success_count b))
                       (failed_count b)) st') as (H1 & H2 & H3 & H4 & H5 & H6).
      { simpl. rewrite length_app. simpl. lia. }
      { simpl. apply Forall_app. split; [|by repeat constructor].
        eapply Forall_impl; [exact Hall|]. auto. }
      simpl in *. repeat split; try done; try lia.
      * auto.
      * intros Hf. constructor; [by apply H5|by apply H6].
    + edestruct (IH (mkBatch (downloaded_files b) (success_count b)
                       (S (failed_count b))) (mkState (files st) (fetched st ++ [k])))
        as (H1 & H2 & H3 & H4 & H5 & H6).
      { done. }
      { done. }
      simpl in *. repeat split; try done; try lia.
Qed.


Lemma batch_warm_fold keys b st :
  uc = true →
  Forall (λ k, on_disk st (lp k)) keys →
  foldl step (b, st) keys
  = (mkBatch (downloaded_files b ++ (lp <$> keys))
             (success_count b + length keys) (failed_count b), st).
Proof.
  intros Huc. revert b. induction keys as [|k keys IH]; intros b Hall.
  - simpl. rewrite app_nil_r, Nat.add_0_r. by destruct b.
  - apply Forall_cons in Hall as [Hk Hks]. cbn [foldl].
    destruct (step_cases b st k) as [(_ & st' & Hs & _ & _ & _ & Hsame)|(Ho & _)].
    + rewrite Hs, (Hsame Huc Hk), IH by done. simpl. csimpl.
      rewrite <- app_assoc. do 2 f_equal. lia.
    + unfold obtained in Ho. rewrite Huc, (bool_decide_eq_true_2 _ Hk) in Ho. done.
Qed.

End S3Batch.

Section S3Batches.
Import S3.





(** After a batch without failure, running the batch again with the cache
    enabled fetches nothing and leaves the disk as it is, and returns the
    local path of every listed object, whatever the order of completion and
    whatever the archive would now answer to a fetch. *)
Theorem download_year_data_warm E E' schedule schedule' loc year dir uc st :
  (∀ l, schedule l ≡ₚ l) →
  (∀ l, schedule' l ≡ₚ l) →
  list_objects E' = list_objects E →
  let r := download_year_data E schedule loc year dir uc st in
  failed_count r.1 = 0%nat →
  let r' := download_year_data E' schedule' loc year dir true r.2 in
  r'.2 = r.2 ∧
  failed_count r'.1 = 0%nat ∧
  downloaded_files r'.1
  = local_path_of dir loc year <$> schedule' (_list_s3_files E loc year None).
Proof.
  intros Hperm Hperm' Hlist r Hfail r'. subst r r'.
  assert (Hl : _list_s3_files E' loc year None = _list_s3_files E loc year None)
    by (unfold _list_s3_files; by rewrite Hlist).
  unfold download_year_data in *. rewrite Hl.
  destruct (_list_s3_files E loc year None) as [|k ks] eqn:Hks.
  - simpl. split; [done|]. split; [done|].
    by rewrite (proj1 (Permutation_nil_r _) (Hperm' [])).
  - destruct (batch_accounting_fold E dir loc year uc (schedule (k :: ks))
                (mkBatch [] 0 0) st) as (_ & _ & _ & _ & _ & H6); [done|done|].
    cbv zeta in *. specialize (H6 Hfail).
    rewrite (batch_warm_fold E' dir loc year true (schedule' (k :: ks))); [done|done|].
    rewrite (Hperm' (k :: ks)), <- (Hperm (k :: ks)). done.
Qed.

Lemma download_year_data_warm_witness :
  let st := S3.mkState {[ ["cache"; "Boston"; "2023"; "2178"; "b.csv.gz"] := "gz" ]} [] in
  let r := download_year_data sample_archive reverse 2178 2023 ["cache"; "Boston"] true
             st in
  let r' := download_year_data sample_archive id 2178 2023 ["cache"; "Boston"] true r.2 in
  r'.2 = r.2 ∧
  failed_count r'.1 = 0%nat ∧
  downloaded_files r'.1
  = local_path_of ["cache"; "Boston"] 2178 2023
      <$> id (_list_s3_files sample_archive 2178 2023 None).
Proof.
  intros st.
  apply (download_year_data_warm sample_archive sample_archive reverse id).
  - intros l. apply reverse_Permutation.
  - done.
  - done.
  - vm_compute. reflexivity.
Defined.

End S3Batches.

(** ** Geo-matcher *)

Section MatcherProperties.
Import Matcher.
Context (haversine_distance : Q → Q → Q → Q → Q).
Context (sort_values : list (station * Q) → list (station * Q)).

#[global] Instance closer_trans : Transitive closer.
Proof.
  intros a b c. unfold closer. rewrite !Qle_bool_iff. apply Qle_trans.
Qed.

#[global] Instance closer_total : Total closer.
Proof.
  intros a b. unfold closer. rewrite !Qle_bool_iff.
  destruct (Qlt_le_dec b.2 a.2) as [H|H]; [right; by apply Qlt_le_weak | by left].
Qed.




End MatcherProperties.

Section MatcherWitnesses.
Import Matcher.


End MatcherWitnesses.

Section MatcherNearest.
Import Matcher.
Context (haversine_distance : Q → Q → Q → Q → Q).
Context (sort_values : list (station * Q) → list (station * Q)).



(** A [max_distance_km] of zero is no limit: as with [None], every station
    of the catalog is eligible, and both searches behave as without a
    limit. *)
Theorem zero_limit_is_no_limit lat lon n m df :
  (m == 0)%Q →
  valid_rows haversine_distance lat lon (Some m) df
  = with_distance haversine_distance lat lon df ∧
  find_nearest_stations haversine_distance sort_values lat lon n (Some m) df
  = find_nearest_stations haversine_distance sort_values lat lon n None df ∧
  find_nearest_station haversine_distance lat lon (Some m) df
  = find_nearest_station haversine_distance lat lon None df.
Proof.
  intros Hm.
  assert (Hl : limit_of (Some m) = None).
  { unfold limit_of. by rewrite (proj2 (Qeq_bool_iff m 0) Hm). }
  assert (Hv : ∀ max, limit_of max = None →
                 valid_rows haversine_distance lat lon max df
                 = with_distance haversine_distance lat lon df).
  { intros max Hmax. unfold valid_rows. rewrite Hmax. simpl.
    induction (with_distance haversine_distance lat lon df) as [|r l IH]; [done|].
    rewrite filter_cons, decide_True by done. by rewrite IH. }
  split; [by apply Hv|].
  unfold find_nearest_stations, nearest_rows, find_nearest_station.
  by rewrite !Hv.
Qed.

End MatcherNearest.

Section MatcherNearestWitness.
Import Matcher.

Lemma zero_limit_is_no_limit_witness :
  valid_rows grid_distance 0 0 (Some 0%Q) sample_catalog
  = with_distance grid_distance 0 0 sample_catalog ∧
  find_nearest_stations grid_distance merge_sort_by_distance 0 0 3 (Some 0%Q)
    sample_catalog
  = find_nearest_stations grid_distance merge_sort_by_distance 0 0 3 None
      sample_catalog ∧
  find_nearest_station grid_distance 0 0 (Some 0%Q) sample_catalog
  = find_nearest_station grid_distance 0 0 None sample_catalog.
Proof. apply zero_limit_is_no_limit. reflexivity. Defined.

Example nearest_two_of_three :
  distance_km <$> find_nearest_stations grid_distance merge_sort_by_distance 0 0 2
                    (Some 100%Q) sample_catalog
  = [1%Q; 4%Q].
Proof. reflexivity. Qed.

End MatcherNearestWitness.

Section ProcessSteps.
Import Outlier NOAAProcess.

Lemma column_length df k : length (column df k) = length (rows df).
Proof. unfold column. by rewrite length_fmap. Qed.

Lemma set_column_length c vs df :
  length vs = length (rows df) →
  length (rows (set_column c vs df)) = length (rows df).
Proof. intros H. unfold set_column. simpl. rewrite length_zip_with. lia. Qed.

Lemma set_column_has_col c vs df k :
  has_col (set_column c vs df) k = has_col df k || bool_decide (k = c).
Proof.
  unfold set_column, has_col at 1. simpl.
  destruct (has_col df c) eqn:Hc.
  - unfold has_col in *. apply bool_decide_eq_true in Hc.
    repeat case_bool_decide; subst; simpl; try done.
  - unfold has_col. apply eq_true_iff_eq.
    rewrite orb_true_iff, !bool_decide_eq_true, elem_of_app, list_elem_of_singleton.
    done.
Qed.

Lemma set_column_other c vs df k :
  length vs = length (rows df) → k ≠ c →
  column (set_column c vs df) k = column df k.
Proof.
  intros Hlen Hk. unfold column, set_column. simpl.
  revert vs Hlen. induction (rows df) as [|r l IH]; intros [|v vs] Hlen; try done.
  simpl in *. f_equal.
  - unfold get. by rewrite lookup_insert_ne.
  - apply IH. lia.
Qed.

Lemma set_column_same c vs df :
  length vs = length (rows df) → column (set_column c vs df) c = vs.
Proof.
  intros Hlen. unfold column, set_column. simpl.
  revert vs Hlen. induction (rows df) as [|r l IH]; intros [|v vs] Hlen; try done.
  simpl in *. f_equal.
  - unfold get. by rewrite lookup_insert_eq.
  - apply IH. lia.
Qed.

Lemma untouched_refl ns df : untouched ns df df.
Proof. by split. Qed.

Lemma untouched_trans ns df1 df2 df3 :
  untouched ns df1 df2 → untouched ns df2 df3 → untouched ns df1 df3.
Proof.
  intros [L1 H1] [L2 H2]. split; [congruence|].
  intros k Hk. destruct (H1 k Hk) as [E1 E2]. destruct (H2 k Hk) as [E3 E4].
  split; congruence.
Qed.

Lemma untouched_weaken ns ns' df df' :
  ns ⊆ ns' → untouched ns df df' → untouched ns' df df'.
Proof.
  intros Hs [L H]. split; [done|]. intros k Hk. apply H. intros Hin. by apply Hk, Hs.
Qed.

Lemma set_column_untouched c vs df :
  length vs = length (rows df) → untouched [c] df (set_column c vs df).
Proof.
  intros Hlen. split; [by apply set_column_length|].
  intros k Hk. rewrite list_elem_of_singleton in Hk. split.
  - by apply set_column_other.
  - rewrite set_column_has_col. rewrite bool_decide_eq_false_2 by done.
    by rewrite orb_false_r.
Qed.

Lemma error_bind_inr {A B} (m : error + A) (k : A → error + B) y :
  m ≫= k = inr y → ∃ x, m = inr x ∧ k x = inr y.
Proof. destruct m as [e|x]; [done|]. intros H. by exists x. Qed.

Lemma mapM_arith f l vs :
  mapM (arith f) l = inr vs → Forall2 (λ c v, arith f c = inr v) l vs.
Proof.
  revert vs. induction l as [|c l IH]; intros vs H.
  - simpl in H. injection H as <-. constructor.
  - simpl in H. apply error_bind_inr in H as (v & Hv & H).
    apply error_bind_inr in H as (vs' & Hvs & H). injection H as <-.
    constructor; [done|by apply IH].
Qed.

Lemma derive_spec new old f df df' :
  derive new old f df = inr df' →
  untouched [new] df df' ∧
  has_col df old = true ∧ has_col df' new = true ∧
  Forall2 (λ c v, arith f c = inr v) (column df old) (column df' new).
Proof.
  unfold derive. destruct (has_col df old) eqn:Hold; [|done].
  intros H. apply error_bind_inr in H as (vs & Hvs & H). injection H as <-.
  apply mapM_arith in Hvs.
  assert (Hlen : length vs = length (rows df)).
  { rewrite <- (Forall2_length _ _ _ Hvs). apply column_length. }
  split; [by apply set_column_untouched|]. split; [done|]. split.
  - rewrite set_column_has_col. rewrite bool_decide_eq_true_2 by done.
    by rewrite orb_true_r.
  - by rewrite set_column_same.
Qed.

End ProcessSteps.

Section ProcessConvert.
Import Outlier NOAAProcess.

Lemma untouched_column ns X Y k :
  untouched ns X Y → k ∉ ns → column Y k = column X k.
Proof. intros [_ H] Hk. by apply H. Qed.

Lemma untouched_has_col ns X Y k :
  untouched ns X Y → k ∉ ns → has_col Y k = has_col X k.
Proof. intros [_ H] Hk. by apply H. Qed.

Ltac not_in_list := apply (bool_decide_unpack _); vm_compute; exact I.

Ltac carry :=
  repeat match goal with
  | U : untouched ?ns ?X ?Y |- context [column ?Y ?k] =>
      rewrite (untouched_column ns X Y k U) by not_in_list
  | U : untouched ?ns ?X ?Y |- context [has_col ?Y ?k] =>
      rewrite (untouched_has_col ns X Y k U) by not_in_list
  | U : untouched ?ns ?X ?Y, H : context [column ?Y ?k] |- _ =>
      rewrite (untouched_column ns X Y k U) in H by not_in_list
  | U : untouched ?ns ?X ?Y, H : context [has_col ?Y ?k] |- _ =>
      rewrite (untouched_has_col ns X Y k U) in H by not_in_list
  end.

Ltac widen U :=
  eapply untouched_weaken; [|exact U];
  intros ? ?; apply (bool_decide_unpack _);
  repeat match goal with
  | H : _ ∈ _ :: _ |- _ => apply elem_of_cons in H as [->|H]
  | H : _ ∈ [] |- _ => by apply elem_of_nil in H
  end; vm_compute; exact I.

Lemma guarded_derive g new old f X Y :
  (if has_col X g then derive new old f X else mret X) = inr Y →
  untouched [new] X Y ∧
  (has_col X g = true →
   has_col X old = true ∧ has_col Y new = true ∧
   Forall2 (λ c v, arith f c = inr v) (column X old) (column Y new)).
Proof.
  destruct (has_col X g).
  - intros H. apply derive_spec in H as (U & O & N & F). done.
  - intros H. injection H as <-. split; [apply untouched_refl|done].
Qed.

Lemma temperature_block X Y :
  (if has_col X "TEMP" then
     result ← derive "TEMP_C" "TEMP" fahrenheit_to_celsius X;
     result ← derive "MAX_C" "MAX" fahrenheit_to_celsius result;
     result ← derive "MIN_C" "MIN" fahrenheit_to_celsius result;
     derive "DEWP_C" "DEWP" fahrenheit_to_celsius result
   else mret X) = inr Y →
  untouched ["TEMP_C"; "MAX_C"; "MIN_C"; "DEWP_C"] X Y ∧
  (has_col X "TEMP" = true →
   Forall (λ p : string * string,
             has_col X p.1 = true ∧ has_col Y p.2 = true ∧
             Forall2 (λ c v, arith fahrenheit_to_celsius c = inr v)
                     (column X p.1) (column Y p.2))
          [("TEMP", "TEMP_C"); ("MAX", "MAX_C"); ("MIN", "MIN_C");
           ("DEWP", "DEWP_C")]).
Proof.
  destruct (has_col X "TEMP") eqn:HT.
  - intros H.
    apply error_bind_inr in H as (X1 & D1 & H).
    apply error_bind_inr in H as (X2 & D2 & H).
    apply error_bind_inr in H as (X3 & D3 & D4).
    apply derive_spec in D1 as (U1 & O1 & N1 & F1).
    apply derive_spec in D2 as (U2 & O2 & N2 & F2).
    apply derive_spec in D3 as (U3 & O3 & N3 & F3).
    apply derive_spec in D4 as (U4 & O4 & N4 & F4).
    split.
    + eapply untouched_trans; [widen U1|].
      eapply untouched_trans; [widen U2|].
      eapply untouched_trans; [widen U3|widen U4].
    + intros _. carry. repeat constructor; simpl; carry; done.
  - intros H. injection H as <-. split; [apply untouched_refl|done].
Qed.

Lemma zip_with_fmap_rows {A B C D} (h : B → C → D) (f : A → B) (g : A → C) l :
  zip_with h (f <$> l) (g <$> l) = (λ x, h (f x) (g x)) <$> l.
Proof. induction l; simpl; [done|by f_equal]. Qed.

Lemma fillna_NaN_r c : fillna c NaN = c.
Proof. by destruct c. Qed.

Lemma replicate_rows {A B} (x : B) (l : list A) :
  replicate (length l) x = (λ _, x) <$> l.
Proof. induction l; simpl; [done|by f_equal]. Qed.

Lemma pressure_step X :
  let Y := if has_col X "SLP" && has_col X "STP" then
             set_column "STP_HPA"
               (zip_with fillna (column X "SLP") (column X "STP")) X
           else if has_col X "SLP" then
             set_column "STP_HPA" (column X "SLP") X
           else if has_col X "STP" then
             set_column "STP_HPA" (column X "STP") X
           else X in
  untouched ["STP_HPA"] X Y ∧
  (has_col X "SLP" = true ∨ has_col X "STP" = true →
   has_col Y "STP_HPA" = true ∧
   column Y "STP_HPA"
   = zip_with fillna
       (if has_col X "SLP" then column X "SLP"
        else replicate (length (rows X)) NaN)
       (if has_col X "STP" then column X "STP"
        else replicate (length (rows X)) NaN)).
Proof.
  assert (Hz : length (zip_with fillna (column X "SLP") (column X "STP"))
               = length (rows X)).
  { rewrite length_zip_with, !column_length. lia. }
  destruct (has_col X "SLP") eqn:HS, (has_col X "STP") eqn:HP; simpl.
  - split; [by apply set_column_untouched|]. intros _.
    rewrite set_column_has_col, set_column_same by done. by rewrite orb_true_r.
  - split; [apply set_column_untouched, column_length|]. intros _.
    rewrite set_column_has_col, set_column_same by apply column_length.
    split; [by rewrite orb_true_r|].
    unfold column. rewrite replicate_rows, zip_with_fmap_rows.
    apply list_fmap_ext. intros i r _. by rewrite fillna_NaN_r.
  - split; [apply set_column_untouched, column_length|]. intros _.
    rewrite set_column_has_col, set_column_same by apply column_length.
    split; [by rewrite orb_true_r|].
    unfold column. by rewrite replicate_rows, zip_with_fmap_rows.
  - split; [apply untouched_refl|]. by intros [?|?].
Qed.

Lemma convert_units_spec A B :
  _convert_units A = inr B →
  untouched DERIVED A B ∧
  (∀ m, m ∈ MEASUREMENTS → has_col A (trigger m) = true →
     has_col A (raw m) = true ∧ has_col B (derived m) = true ∧
     Forall2 (λ c v, arith (convert m) c = inr v)
             (column A (raw m)) (column B (derived m))) ∧
  (has_col A "SLP" = true ∨ has_col A "STP" = true →
   has_col B "STP_HPA" = true ∧
   column B "STP_HPA"
   = zip_with fillna
       (if has_col A "SLP" then column A "SLP"
        else replicate (length (rows A)) NaN)
       (if has_col A "STP" then column A "STP"
        else replicate (length (rows A)) NaN)).
Proof.
  unfold _convert_units. intros H.
  apply error_bind_inr in H as (X4 & H4 & H).
  apply error_bind_inr in H as (X5 & H5 & H).
  apply error_bind_inr in H as (X6 & H6 & H).
  apply error_bind_inr in H as (X7 & H7 & H).
  injection H as H.
  apply temperature_block in H4 as [U4 T4].
  apply guarded_derive in H5 as [U5 T5].
  apply guarded_derive in H6 as [U6 T6].
  apply guarded_derive in H7 as [U7 T7].
  destruct (pressure_step X7) as [U8 T8]. rewrite H in U8, T8. clear H.
  assert (HA : untouched DERIVED A X7).
  { eapply untouched_trans; [widen U4|].
    eapply untouched_trans; [widen U5|].
    eapply untouched_trans; [widen U6|widen U7]. }
  split; [|split].
  - eapply untouched_trans; [exact HA|widen U8].
  - clear T8 HA. intros m Hm Htr.
    repeat (apply elem_of_cons in Hm as [->|Hm]); [..|by apply elem_of_nil in Hm];
      simpl in *.
    + specialize (T4 Htr). rewrite !Forall_cons in T4. simpl in T4.
      destruct T4 as ((? & ? & ?) & _). carry. done.
    + specialize (T4 Htr). rewrite !Forall_cons in T4. simpl in T4.
      destruct T4 as (_ & (? & ? & ?) & _). carry. done.
    + specialize (T4 Htr). rewrite !Forall_cons in T4. simpl in T4.
      destruct T4 as (_ & _ & (? & ? & ?) & _). carry. done.
    + specialize (T4 Htr). rewrite !Forall_cons in T4. simpl in T4.
      destruct T4 as (_ & _ & _ & (? & ? & ?) & _). carry. done.
    + clear T4 T6 T7. carry. destruct (T5 Htr) as (? & ? & ?). done.
    + clear T4 T5 T7. carry. destruct (T6 Htr) as (? & ? & ?). done.
    + clear T4 T5 T6. carry. destruct (T7 Htr) as (? & ? & ?). done.
  - clear T4 T5 T6 T7 U4 U5 U6 U7 U8.
    destruct HA as [HL HA].
    assert ("SLP" ∉ DERIVED) as HS by not_in_list.
    assert ("STP" ∉ DERIVED) as HP by not_in_list.
    destruct (HA _ HS) as [CS ES]. destruct (HA _ HP) as [CP EP].
    rewrite ES, EP, CS, CP, HL in T8. exact T8.
Qed.

Lemma replace_col_spec df e :
  untouched [e.1] df (replace_col df e) ∧
  (∀ k, has_col (replace_col df e) k = has_col df k) ∧
  (has_col df e.1 = true →
   column (replace_col df e) e.1 = replace e.2 <$> column df e.1).
Proof.
  destruct e as [c s]. unfold replace_col. simpl.
  destruct (has_col df c) eqn:Hc.
  - assert (Hlen : length (replace s <$> column df c) = length (rows df)).
    { by rewrite length_fmap, column_length. }
    split; [by apply set_column_untouched|]. split.
    + intros k. rewrite set_column_has_col. case_bool_decide; subst.
      * by rewrite Hc.
      * by rewrite orb_false_r.
    + intros _. by apply set_column_same.
  - split; [apply untouched_refl|]. done.
Qed.

Lemma replace_fold_spec l df :
  NoDup l.*1 →
  let A := foldl replace_col df l in
  length (rows A) = length (rows df) ∧
  (∀ k, has_col A k = has_col df k) ∧
  (∀ k, k ∉ l.*1 → column A k = column df k) ∧
  (∀ k s, (k, s) ∈ l → has_col df k = true →
     column A k = replace s <$> column df k).
Proof.
  revert df. induction l as [|e l IH]; intros df Hnd; simpl.
  - repeat split; try done. intros k s Hin. by apply elem_of_nil in Hin.
  - apply NoDup_cons in Hnd as [He Hnd].
    destruct (IH (replace_col df e) Hnd) as (L & C & O & R).
    destruct (replace_col_spec df e) as ([L1 U1] & C1 & R1).
    split; [congruence|]. split; [intros k; by rewrite C|]. split.
    + intros k Hk. apply not_elem_of_cons in Hk as [Hke Hk].
      rewrite (O k Hk). apply U1. by rewrite list_elem_of_singleton.
    + intros k s Hin Hcol. apply elem_of_cons in Hin as [<-|Hin].
      * simpl in *. rewrite (O k He). by apply R1.
      * assert (k ≠ e.1) as Hne.
        { intros ->. apply He. apply list_elem_of_fmap. by exists (e.1, s). }
        rewrite (R k s Hin) by (by rewrite C1). f_equal.
        apply U1. by rewrite list_elem_of_singleton.
Qed.

Lemma select_columns_spec B orig new :
  (orig, new) ∈ SELECTED_COLUMNS → has_col B orig = true →
  let C := _select_columns B in
  has_col C new = true ∧ length (rows C) = length (rows B) ∧
  column C new = column B orig ∧
  (∀ k r, k ∉ SELECTED_COLUMNS.*2 → r ∈ rows C → r !! k = None).
Proof.
  intros Hin HB. unfold _select_columns.
  set (sel := filter (λ e : string * string, has_col B e.1 = true) SELECTED_COLUMNS).
  assert (Hsel : (orig, new) ∈ sel) by (by apply list_elem_of_filter).
  assert (Hsub : sel.*2 `sublist_of` SELECTED_COLUMNS.*2).
  { apply fmap_sublist, sublist_filter. }
  assert (Hnd : NoDup sel.*2).
  { eapply sublist_NoDup; [|exact Hsub]. apply (bool_decide_unpack _). by vm_compute. }
  assert (HC : match sel with
               | [] => empty_frame
               | _ => mkFrame (sel.*2) (select_row sel <$> rows B)
               end = mkFrame (sel.*2) (select_row sel <$> rows B)).
  { destruct sel; [by apply elem_of_nil in Hsel|done]. }
  rewrite HC. clear HC. simpl. split; [|split; [|split]].
  - unfold has_col. simpl. apply bool_decide_eq_true.
    apply list_elem_of_fmap. by exists (orig, new).
  - by rewrite length_fmap.
  - unfold column. simpl. rewrite <- list_fmap_compose.
    apply list_fmap_ext. intros i r _. simpl. unfold get at 1, select_row.
    erewrite elem_of_list_to_map_1; [done| |].
    + by rewrite <- list_fmap_compose.
    + apply list_elem_of_fmap. by exists (orig, new).
  - intros k r Hk Hr. apply list_elem_of_fmap in Hr as (rB & -> & _).
    unfold select_row. apply not_elem_of_list_to_map_1.
    rewrite <- list_fmap_compose. intros Hin'. apply Hk.
    eapply elem_of_sublist; [exact Hin'|exact Hsub].
Qed.


Lemma column_value_at C c i v :
  column C c !! i = Some v ↔ value_at C i c = Some v.
Proof. unfold column, value_at. by rewrite list_lookup_fmap. Qed.

Lemma fresh_flag_at C c i :
  (∀ r, r ∈ rows C → r !! outlier_col c = None) → flag_at C i c = None.
Proof.
  intros H. unfold flag_at. destruct (rows C !! i) as [r|] eqn:Hr; [|done].
  simpl. apply H. by eapply list_elem_of_lookup_2.
Qed.

Lemma detect_tracked C c lo hi :
  (c, (lo, hi)) ∈ NOAA.OUTLIER_THRESHOLDS → has_col C c = true →
  (∀ r, r ∈ rows C → r !! outlier_col c = None) →
  let out := NOAA._detect_outliers C in
  length (rows out) = length (rows C) ∧
  ∀ i v, column C c !! i = Some v →
    (v = NaN →
     value_at out i c = Some NaN ∧ flag_at out i c ≠ Some (Bool true)) ∧
    (∀ q, v = Num q →
       ((lo <= q ∧ q <= hi)%Q →
        value_at out i c = Some (Num q) ∧ flag_at out i c = Some (Bool false)) ∧
       (¬ (lo <= q ∧ q <= hi)%Q →
        value_at out i c = Some NaN ∧ flag_at out i c = Some (Bool true))).
Proof.
  intros Hin Hcol Hfresh out.
  assert (Hc : flags_null_guarded C out c lo hi).
  { eapply contract_agree.
    - apply (noaa_fold_target _ C c lo hi noaa_thresholds_NoDup Hin).
    - by apply noaa_detect_col_contract. }
  destruct Hc as [Hlen Hc]. split; [done|].
  intros i v Hv. apply column_value_at in Hv.
  destruct (Hc i v Hv) as (Hout & Hinr & Hnull). split.
  - intros ->. destruct (Hnull eq_refl) as [Hval Hflag]. split; [done|].
    rewrite Hflag, (fresh_flag_at C c i Hfresh). by destruct (_ =? _)%nat.
  - intros q ->. split; [by apply Hinr|].
    intros Hn. apply (Hout q eq_refl).
    destruct (Qlt_le_dec q lo) as [?|Hlo]; [by left|].
    destruct (Qlt_le_dec hi q) as [?|Hhi]; [by right|]. by destruct Hn.
Qed.

Lemma detect_untracked C c :
  c ∉ tracked_keys NOAA.OUTLIER_THRESHOLDS →
  outlier_col c ∉ tracked_keys NOAA.OUTLIER_THRESHOLDS →
  (∀ r, r ∈ rows C → r !! outlier_col c = None) →
  let out := NOAA._detect_outliers C in
  length (rows out) = length (rows C) ∧
  ∀ i, value_at out i c = value_at C i c ∧ flag_at out i c = None.
Proof.
  intros H1 H2 Hfresh out.
  assert (Ha : agree [c; outlier_col c] C out).
  { apply noaa_fold_other. intros k Hk.
    apply elem_of_cons in Hk as [->|Hk]; [done|].
    apply list_elem_of_singleton in Hk as ->. done. }
  split; [symmetry; by eapply agree_rows_length|].
  intros i. split.
  - symmetry. eapply agree_value_at; [exact Ha|]. apply list_elem_of_here.
  - rewrite <- (fresh_flag_at C c i Hfresh). symmetry.
    eapply agree_flag_at; [exact Ha|]. apply list_elem_of_further, list_elem_of_here.
Qed.

Lemma select_detect_spec B orig new :
  (orig, new) ∈ SELECTED_COLUMNS → has_col B orig = true →
  match limits NOAA.OUTLIER_THRESHOLDS new with
  | Some range => (new, range) ∈ NOAA.OUTLIER_THRESHOLDS
  | None => new ∉ tracked_keys NOAA.OUTLIER_THRESHOLDS ∧
            outlier_col new ∉ tracked_keys NOAA.OUTLIER_THRESHOLDS
  end →
  outlier_col new ∉ SELECTED_COLUMNS.*2 →
  let out := NOAA._detect_outliers (_select_columns B) in
  length (rows out) = length (rows B) ∧
  ∀ i c, column B orig !! i = Some c →
    (c = NaN →
     value_at out i new = Some NaN ∧ flag_at out i new ≠ Some (Bool true)) ∧
    (∀ v, c = Num v →
       (plausible new v →
        value_at out i new = Some (Num v) ∧
        flag_at out i new
        = (λ _, Bool false) <$> limits NOAA.OUTLIER_THRESHOLDS new) ∧
       (¬ plausible new v →
        value_at out i new = Some NaN ∧ flag_at out i new = Some (Bool true))).
Proof.
  intros Hsel HB Hlim Hfl out.
  destruct (select_columns_spec B orig new Hsel HB) as (HC & HL & Hcol & Hnone).
  assert (Hfresh : ∀ r, r ∈ rows (_select_columns B) → r !! outlier_col new = None).
  { intros r Hr. by apply Hnone. }
  unfold plausible.
  destruct (limits NOAA.OUTLIER_THRESHOLDS new) as [[lo hi]|].
  - destruct (detect_tracked _ new lo hi Hlim HC Hfresh) as [Hlen Hd].
    split; [fold out in Hlen; congruence|].
    intros i c Hc. rewrite <- Hcol in Hc. apply (Hd i c Hc).
  - destruct Hlim as [H1 H2].
    destruct (detect_untracked _ new H1 H2 Hfresh) as [Hlen Hd].
    split; [fold out in Hlen; congruence|].
    intros i c Hc. rewrite <- Hcol in Hc. apply column_value_at in Hc.
    destruct (Hd i) as [Hv Hf]. fold out in Hv, Hf. rewrite Hv, Hf, Hc. simpl.
    split.
    + by intros ->.
    + intros v ->. split; [done|tauto].
Qed.


Lemma error_ret_inr {A} (x y : A) : mret x = (inr y : error + A) → x = y.
Proof. intros H. by injection H. Qed.

Lemma process_stages df out :
  process df = inr out →
  (empty df = true ∧ out = df) ∨
  ∃ B, _convert_units (foldl replace_col df NOAA_MISSING_VALUES) = inr B ∧
       out = NOAA._detect_outliers (_select_columns B).
Proof.
  unfold process. destruct (empty df).
  - intros H. injection H as <-. by left.
  - intros H. apply error_bind_inr in H as (B & HB & H).
    apply error_ret_inr in H. right. exists B. split; [exact HB|by symmetry].
Qed.

Lemma empty_no_rows df k :
  empty df = true → has_col df k = true → rows df = [].
Proof.
  unfold empty, has_col. intros He Hk. apply bool_decide_eq_true in Hk.
  destruct (columns df); [by apply elem_of_nil in Hk|]. by destruct (rows df).
Qed.

Lemma missing_values_NoDup : NoDup NOAA_MISSING_VALUES.*1.
Proof. apply (bool_decide_unpack _). by vm_compute. Qed.





Lemma pressure_cell (h : bool) (g : cell → cell) df k i r :
  rows df !! i = Some r →
  (if h then g <$> column df k else replicate (length (rows df)) NaN) !! i
  = Some (if h then g (get r k) else NaN).
Proof.
  intros Hr. destruct h.
  - unfold column. by rewrite !list_lookup_fmap, Hr.
  - apply lookup_replicate_2. by eapply lookup_lt_Some.
Qed.

(** [process] on the pressure: station_pressure_hpa holds the sea-level
    pressure where SLP has a reading and the station pressure STP
    otherwise, each after its own sentinel is discarded; a value outside
    870..1085 hPa is nulled and flagged, a missing one is never flagged. *)
Theorem process_pressure df out :
  has_col df "SLP" = true ∨ has_col df "STP" = true →
  process df = inr out →
  length (rows out) = length (rows df) ∧
  ∀ i r, rows df !! i = Some r →
    float_or_null (get r "SLP") → float_or_null (get r "STP") →
    let slp := if has_col df "SLP"
               then reading (99999 # 10) (get r "SLP") else None in
    let stp := if has_col df "STP"
               then reading (9999 # 10) (get r "STP") else None in
    match match slp with Some q => Some q | None => stp end with
    | None =>
        value_at out i "station_pressure_hpa" = Some NaN ∧
        flag_at out i "station_pressure_hpa" ≠ Some (Bool true)
    | Some v =>
        ((870 <= v ∧ v <= 1085)%Q →
         value_at out i "station_pressure_hpa" = Some (Num v) ∧
         flag_at out i "station_pressure_hpa" = Some (Bool false)) ∧
        (¬ (870 <= v ∧ v <= 1085)%Q →
         value_at out i "station_pressure_hpa" = Some NaN ∧
         flag_at out i "station_pressure_hpa" = Some (Bool true))
    end.
Proof.
  intros Hor Hp.
  apply process_stages in Hp as [[He ->]|(B & HB & ->)].
  { assert (rows df = []) as ->.
    { destruct Hor; by eapply empty_no_rows. }
    split; [done|]. by intros i r Hr. }
  destruct (replace_fold_spec NOAA_MISSING_VALUES df missing_values_NoDup)
    as (LA & CA & _ & RA).
  destruct (convert_units_spec _ _ HB) as ([LB _] & _ & PB).
  rewrite !CA, LA in PB. destruct (PB Hor) as [HP Hcol]. clear PB HB.
  assert (HS : (if has_col df "SLP"
                then column (foldl replace_col df NOAA_MISSING_VALUES) "SLP"
                else replicate (length (rows df)) NaN)
               = (if has_col df "SLP"
                  then replace (99999 # 10) <$> column df "SLP"
                  else replicate (length (rows df)) NaN)).
  { destruct (has_col df "SLP") eqn:E; [|done]. apply RA; [by in_list|done]. }
  assert (HT : (if has_col df "STP"
                then column (foldl replace_col df NOAA_MISSING_VALUES) "STP"
                else replicate (length (rows df)) NaN)
               = (if has_col df "STP"
                  then replace (9999 # 10) <$> column df "STP"
                  else replicate (length (rows df)) NaN)).
  { destruct (has_col df "STP") eqn:E; [|done]. apply RA; [by in_list|done]. }
  rewrite HS, HT in Hcol. clear HS HT RA.
  edestruct (select_detect_spec B "STP_HPA" "station_pressure_hpa")
    as [Lout Hout]; [by in_list|exact HP|simpl; by in_list|not_in_list|].
  split; [congruence|].
  intros i r Hr HfS HfT.
  assert (Hc : column B "STP_HPA" !! i
               = Some (fillna
                         (if has_col df "SLP"
                          then replace (99999 # 10) (get r "SLP") else NaN)
                         (if has_col df "STP"
                          then replace (9999 # 10) (get r "STP") else NaN))).
  { rewrite Hcol, lookup_zip_with.
    rewrite (pressure_cell _ (replace (99999 # 10)) df "SLP" i r Hr).
    by rewrite (pressure_cell _ (replace (9999 # 10)) df "STP" i r Hr). }
  destruct (Hout i _ Hc) as [Hnull Hval].
  clear - HfS HfT Hnull Hval.
  unfold plausible in Hval. simpl in Hval.
  unfold reading, replace, fillna in *.
  destruct (has_col df "SLP"), (has_col df "STP");
    destruct (get r "SLP") as [|q1| | | |]; try done;
    destruct (get r "STP") as [|q2| | | |]; try done; simpl in *;
    repeat match goal with
    | |- context [Qeq_bool ?a ?b] => destruct (Qeq_bool a b); simpl in *
    end;
    first [by apply Hnull | by apply Hval].
Qed.

Lemma error_bind_inl {A B} (m : error + A) (k : A → error + B) e :
  m ≫= k = inl e → m = inl e ∨ ∃ x, m = inr x ∧ k x = inl e.
Proof.
  destruct m as [e'|x]; [intros H; injection H as ->; by left|].
  intros H. right. by exists x.
Qed.

Lemma mapM_arith_inl f l e : mapM (arith f) l = inl e → e = TypeError.
Proof.
  induction l as [|c l IH]; [done|]. simpl. intros H.
  apply error_bind_inl in H as [H|(v & _ & H)].
  - destruct c; simpl in H; congruence.
  - apply error_bind_inl in H as [H|(vs & _ & H)]; [by apply IH|done].
Qed.

Lemma derive_inl new old f X e :
  derive new old f X = inl e →
  e = TypeError ∨ (e = KeyError old ∧ has_col X old = false).
Proof.
  unfold derive. destruct (has_col X old).
  - intros H. left. apply error_bind_inl in H as [H|(vs & _ & H)]; [|done].
    by eapply mapM_arith_inl.
  - intros [= <-]. by right.
Qed.

Lemma guarded_derive_inl g new f X e :
  (if has_col X g then derive new g f X else mret X) = inl e → e = TypeError.
Proof.
  destruct (has_col X g) eqn:Hg; [|done].
  intros H. apply derive_inl in H as [?|[_ ?]]; [done|congruence].
Qed.

Lemma convert_units_inl A e :
  _convert_units A = inl e →
  e = TypeError ∨
  ∃ k, e = KeyError k ∧ k ∈ ["MAX"; "MIN"; "DEWP"] ∧
       has_col A "TEMP" = true ∧ has_col A k = false.
Proof.
  unfold _convert_units. intros H.
  apply error_bind_inl in H as [H|(X4 & _ & H)].
  - destruct (has_col A "TEMP") eqn:HT; [|done].
    apply error_bind_inl in H as [H|(X1 & D1 & H)].
    { apply derive_inl in H as [?|[_ ?]]; [by left|congruence]. }
    apply derive_spec in D1 as (U1 & _).
    apply error_bind_inl in H as [H|(X2 & D2 & H)].
    { apply derive_inl in H as [?|[-> H]]; [by left|]. right. exists "MAX".
      carry. split; [done|]. split; [by in_list|done]. }
    apply derive_spec in D2 as (U2 & _).
    apply error_bind_inl in H as [H|(X3 & D3 & H)].
    { apply derive_inl in H as [?|[-> H]]; [by left|]. right. exists "MIN".
      carry. split; [done|]. split; [by in_list|done]. }
    apply derive_spec in D3 as (U3 & _).
    apply derive_inl in H as [?|[-> H]]; [by left|]. right. exists "DEWP".
    carry. split; [done|]. split; [by in_list|done].
  - left.
    apply error_bind_inl in H as [H|(X5 & _ & H)];
      [by eapply guarded_derive_inl|].
    apply error_bind_inl in H as [H|(X6 & _ & H)];
      [by eapply guarded_derive_inl|].
    apply error_bind_inl in H as [H|(X7 & _ & H)];
      [by eapply guarded_derive_inl|].
    done.
Qed.

(** A non-empty frame with a TEMP column but without one of MAX, MIN and
    DEWP makes [process] raise; and whenever [process] raises, it is either
    on a value that is not a number or a KeyError on one of these three
    columns, absent while TEMP is present. *)
Theorem process_incomplete_temperature df :
  (∀ key, empty df = false → has_col df "TEMP" = true →
          key ∈ ["MAX"; "MIN"; "DEWP"] → has_col df key = false →
          ∃ e, process df = inl e) ∧
  (∀ e, process df = inl e →
        e = TypeError ∨
        ∃ k, e = KeyError k ∧ k ∈ ["MAX"; "MIN"; "DEWP"] ∧
             has_col df "TEMP" = true ∧ has_col df k = false).
Proof.
  destruct (replace_fold_spec NOAA_MISSING_VALUES df missing_values_NoDup)
    as (_ & CA & _ & _).
  split.
  - intros key He HT Hkey Hk. unfold process. rewrite He.
    destruct (_convert_units (foldl replace_col df NOAA_MISSING_VALUES))
      as [e|B] eqn:HB; [by exists e|].
    exfalso. destruct (convert_units_spec _ _ HB) as (_ & MB & _).
    rewrite <- (CA key) in Hk. rewrite <- (CA "TEMP") in HT. clear HB CA.
    repeat (apply elem_of_cons in Hkey as [->|Hkey]);
      [..|by apply elem_of_nil in Hkey].
    + destruct (MB (mkMeasurement "TEMP" "MAX" (99999 # 10)
                      fahrenheit_to_celsius "MAX_C" "temp_max_c"))
        as (H & _); [by in_list|exact HT|]. cbn [raw] in H. congruence.
    + destruct (MB (mkMeasurement "TEMP" "MIN" (99999 # 10)
                      fahrenheit_to_celsius "MIN_C" "temp_min_c"))
        as (H & _); [by in_list|exact HT|]. cbn [raw] in H. congruence.
    + destruct (MB (mkMeasurement "TEMP" "DEWP" (99999 # 10)
                      fahrenheit_to_celsius "DEWP_C" "dewpoint_c"))
        as (H & _); [by in_list|exact HT|]. cbn [raw] in H. congruence.
  - intros e. unfold process. destruct (empty df); [done|]. intros H.
    apply error_bind_inl in H as [H|(B & _ & H)]; [|done].
    apply convert_units_inl in H as [?|(k & ? & ? & HT & Hk)]; [by left|].
    right. exists k. rewrite CA in HT, Hk. done.
Qed.

End ProcessConvert.

Section ProcessWitnesses.
Import Outlier NOAAProcess.

Lemma process_raw_gsod : process raw_gsod = inr processed_gsod.
Proof. vm_cast_no_check (eq_refl (inr processed_gsod : error + frame)). Qed.


Lemma process_pressure_witness :
  length (rows processed_gsod) = length (rows raw_gsod) ∧
  ∀ i r, rows raw_gsod !! i = Some r →
    float_or_null (get r "SLP") → float_or_null (get r "STP") →
    let slp := if has_col raw_gsod "SLP"
               then reading (99999 # 10) (get r "SLP") else None in
    let stp := if has_col raw_gsod "STP"
               then reading (9999 # 10) (get r "STP") else None in
    match match slp with Some q => Some q | None => stp end with
    | None =>
        value_at processed_gsod i "station_pressure_hpa" = Some NaN ∧
        flag_at processed_gsod i "station_pressure_hpa" ≠ Some (Bool true)
    | Some v =>
        ((870 <= v ∧ v <= 1085)%Q →
         value_at processed_gsod i "station_pressure_hpa" = Some (Num v) ∧
         flag_at processed_gsod i "station_pressure_hpa" = Some (Bool false)) ∧
        (¬ (870 <= v ∧ v <= 1085)%Q →
         value_at processed_gsod i "station_pressure_hpa" = Some NaN ∧
         flag_at processed_gsod i "station_pressure_hpa" = Some (Bool true))
    end.
Proof.
  apply (process_pressure raw_gsod processed_gsod).
  - left. reflexivity.
  - vm_cast_no_check (eq_refl (inr processed_gsod : error + frame)).
Defined.

Lemma process_incomplete_temperature_witness :
  ∃ e, process temperature_only = inl e.
Proof.
  apply (proj1 (process_incomplete_temperature temperature_only) "MAX").
  - reflexivity.
  - reflexivity.
  - in_list.
  - reflexivity.
Defined.

Example processed_gsod_second_day :
  (λ c, value_at processed_gsod 1 c) <$> ["temp_avg_c"; "temp_max_c"; "station_pressure_hpa"]
  = [Some NaN; Some NaN; Some (Num 1001)] ∧
  (λ c, flag_at processed_gsod 1 c) <$> ["temp_avg_c"; "temp_max_c"; "station_pressure_hpa"]
  = [Some (Bool false); Some (Bool true); Some (Bool false)].
Proof. split; vm_compute; reflexivity. Qed.

End ProcessWitnesses.
